(** * Image-Editor: the canvas pipeline of [src/App.tsx]

    The editor keeps four pieces of React state (the uploaded image, the
    adjustments, the rotation and the two flip flags) and redraws one canvas
    from them in [applyFilters].  This file embeds that state, the event
    handlers and [applyFilters] together with the part of the Canvas 2D
    context the function drives: the reset on resizing, the [filter]
    attribute, the current transformation matrix with [save]/[restore], and
    [drawImage].

    Conventions of the embedding.
    - Lengths and translations are kept in HALF PIXELS, so that
      [canvas.width/2], [-img.width/2] and the pixel centres [x + 1/2] are
      integers: pixel [x] has its centre at [2*x+1].
    - [Math.cos] and [Math.sin] are taken exactly at the multiples of 90
      degrees; at any other angle the matrix is not represented ([None]) and
      neither are the pixels drawn through it.
    - Where a destination pixel centre falls on the border between source
      pixels the browser interpolates; such pixels are not represented
      either ([cv_data = None]).  The canvas size is always represented.
    - The bitmap of a canvas holds 8-bit colours premultiplied by alpha:
      drawing multiplies each colour by alpha/255 and rounds, reading the
      canvas back divides and rounds again, so that only pixels of alpha 255
      (and transparent black) come back as they went in. *)

From Stdlib Require Import String ZArith List Bool Lia.
From Stdlib Require Import Permutation.
Import ListNotations.
Open Scope Z_scope.

(** ** Bitmaps *)

Record pixel : Type := mkPixel { red : Z; green : Z; blue : Z; alpha : Z }.

(** Transparent black, the content of a freshly reset canvas. *)
Definition transparent : pixel := mkPixel 0 0 0 0.

(** Row-major pixel grid: pixel (x, y) sits at index [y * width + x]. *)
Record Bitmap : Type := mkBitmap {
  bm_width : Z;
  bm_height : Z;
  bm_data : list pixel
}.

Definition channel_ok (v : Z) : Prop := 0 <= v <= 255.

Definition pixel_ok (p : pixel) : Prop :=
  channel_ok (red p) /\ channel_ok (green p) /\
  channel_ok (blue p) /\ channel_ok (alpha p).

(** A decoded image: positive size, one pixel per cell, 8-bit channels. *)
Definition bitmap_wf (b : Bitmap) : Prop :=
  0 < bm_width b /\ 0 < bm_height b /\
  Z.of_nat (length (bm_data b)) = bm_width b * bm_height b /\
  Forall pixel_ok (bm_data b).

Definition in_bounds (w h x y : Z) : bool :=
  (0 <=? x) && (x <? w) && (0 <=? y) && (y <? h).

(** Reading outside the grid yields transparent black: nothing is drawn
    there. *)
Definition get_pixel (b : Bitmap) (x y : Z) : pixel :=
  if in_bounds (bm_width b) (bm_height b) x y
  then nth (Z.to_nat (y * bm_width b + x)) (bm_data b) transparent
  else transparent.

(** The indices 0 .. n-1. *)
Definition zseq (n : Z) : list Z := map Z.of_nat (seq 0 (Z.to_nat n)).

(** The [w] x [h] grid whose pixel (x, y) is [f x y]. *)
Definition raster (w h : Z) (f : Z -> Z -> pixel) : list pixel :=
  map (fun i => f (i mod w) (i / w)) (zseq (w * h)).

Definition blank (w h : Z) : list pixel := raster w h (fun _ _ => transparent).

(** ** CSS filter functions

    [ctx.filter] holds a list of filter functions, applied left to right. *)

Inductive filter_fn : Type :=
| Brightness (percent : Z)
| Contrast (percent : Z)
| Saturate (percent : Z)
| Blur (px : Z).

(** The CSS grammar allows no negative argument to any of the four. *)
Definition filter_fn_valid (f : filter_fn) : bool :=
  match f with
  | Brightness p | Contrast p | Saturate p | Blur p => 0 <=? p
  end.

Definition clamp255 (v : Z) : Z := Z.max 0 (Z.min 255 v).

(** Division rounded to the nearest integer, halves upwards. *)
Definition round_div (n d : Z) : Z := (2 * n + d) / (2 * d).

(** Modelled from the spec: the per-channel arithmetic of the brightness
    filter, which the browser implements.  "Each color channel value is
    scaled by brightness/100.  Result is clamped to [0,255]." *)
Definition brightness_channel (b v : Z) : Z := clamp255 (round_div (v * b) 100).

(** Modelled from the spec: the contrast filter of the browser.  "Each color
    channel value is remapped by 128 + (value - 128) * (contrast/100),
    clamped to [0,255]." *)
Definition contrast_channel (c v : Z) : Z :=
  clamp255 (128 + round_div ((v - 128) * c) 100).

(** Modelled from the spec: 1000 times the luminance
    L = 0.299R + 0.587G + 0.114B. *)
Definition luminance1000 (p : pixel) : Z :=
  299 * red p + 587 * green p + 114 * blue p.

(** Modelled from the spec: the saturate filter of the browser.  "Blend each
    channel toward L using factor saturation/100", that is
    L + (value - L) * s/100, clamped to [0,255]. *)
Definition saturate_channel (s : Z) (p : pixel) (v : Z) : Z :=
  clamp255 (round_div (luminance1000 p * (100 - s) + 1000 * v * s) 100000).

(** Alpha passes through all four adjustments unchanged. *)
Definition brightness_pixel (b : Z) (p : pixel) : pixel :=
  mkPixel (brightness_channel b (red p)) (brightness_channel b (green p))
          (brightness_channel b (blue p)) (alpha p).

Definition contrast_pixel (c : Z) (p : pixel) : pixel :=
  mkPixel (contrast_channel c (red p)) (contrast_channel c (green p))
          (contrast_channel c (blue p)) (alpha p).

Definition saturate_pixel (s : Z) (p : pixel) : pixel :=
  mkPixel (saturate_channel s p (red p)) (saturate_channel s p (green p))
          (saturate_channel s p (blue p)) (alpha p).

Definition map_pixels (f : pixel -> pixel) (b : Bitmap) : Bitmap :=
  mkBitmap (bm_width b) (bm_height b) (map f (bm_data b)).

Definition clamp_index (n i : Z) : Z := Z.max 0 (Z.min (n - 1) i).

(** The offsets -r .. r. *)
Definition window (r : Z) : list Z := map (fun i => i - r) (zseq (2 * r + 1)).

Definition sum_over (l : list Z) (f : Z -> Z) : Z :=
  fold_right (fun i acc => f i + acc) 0 l.

(** Modelled from the spec: the blur filter of the browser, as a box blur
    of the given radius.  "Radius 0 must short-circuit to the identity
    transform"; "edge pixels use clamped (repeat-edge) sampling, not
    wraparound". *)
Definition blur_pixel (r : Z) (b : Bitmap) (x y : Z) : pixel :=
  let at_ ch dx dy :=
    ch (get_pixel b (clamp_index (bm_width b) (x + dx))
                    (clamp_index (bm_height b) (y + dy))) in
  let avg ch :=
    round_div (sum_over (window r) (fun dy => sum_over (window r) (fun dx => at_ ch dx dy)))
              ((2 * r + 1) * (2 * r + 1)) in
  mkPixel (avg red) (avg green) (avg blue) (alpha (get_pixel b x y)).

Definition blur_bitmap (r : Z) (b : Bitmap) : Bitmap :=
  if r <=? 0 then b
  else mkBitmap (bm_width b) (bm_height b)
                (raster (bm_width b) (bm_height b) (blur_pixel r b)).

Definition apply_filter_fn (f : filter_fn) (b : Bitmap) : Bitmap :=
  match f with
  | Brightness p => map_pixels (brightness_pixel p) b
  | Contrast p => map_pixels (contrast_pixel p) b
  | Saturate p => map_pixels (saturate_pixel p) b
  | Blur r => blur_bitmap r b
  end.

(** A filter list is applied in the order it is written. *)
Definition apply_filters (fs : list filter_fn) (b : Bitmap) : Bitmap :=
  fold_left (fun acc f => apply_filter_fn f acc) fs b.

(** ** The 2D rendering context *)

(** The affine matrix of the context: a point (x, y) is sent to
    (a*x + c*y + e, b*x + d*y + f).  [me] and [mf] are in half pixels. *)
Record Matrix : Type := mkMatrix {
  ma : Z; mb : Z; mc : Z; md : Z; me : Z; mf : Z
}.

Definition identity_matrix : Matrix := mkMatrix 1 0 0 1 0 0.

Definition apply_matrix (m : Matrix) (p : Z * Z) : Z * Z :=
  (ma m * fst p + mc m * snd p + me m, mb m * fst p + md m * snd p + mf m).

(** The drawing state that [save] pushes and [restore] pops.  [None] as a
    matrix stands for a rotation by an angle that is no multiple of 90. *)
Record DrawState : Type := mkDrawState {
  ds_filter : list filter_fn;
  ds_ctm : option Matrix
}.

Record Context : Type := mkContext {
  ctx_state : DrawState;
  ctx_stack : list DrawState
}.

(** A context in its default state: filter "none", identity matrix. *)
Definition default_context : Context :=
  mkContext (mkDrawState [] (Some identity_matrix)) [].

(** The canvas element with its bitmap and its one 2D context.  The bitmap
    [cv_data] holds premultiplied pixels (see [premultiply]); it is
    [None] once something was drawn that needs the interpolation of the
    browser. *)
Record Canvas : Type := mkCanvas {
  cv_width : Z;
  cv_height : Z;
  cv_data : option (list pixel);
  cv_ctx : Context
}.

(** A canvas element as it is mounted: 300 x 150, cleared. *)
Definition default_canvas : Canvas :=
  mkCanvas 300 150 (Some (blank 300 150)) default_context.

(** [canvas.getContext('2d')]: the element is only ever used in 2D mode, so
    the context is there. *)
Definition getContext (cv : Canvas) : option Context := Some (cv_ctx cv).

(** Assigning [canvas.width] or [canvas.height], even the value it has,
    clears the bitmap to transparent black and resets the context to its
    default state. *)
Definition set_width (w : Z) (cv : Canvas) : Canvas :=
  mkCanvas w (cv_height cv) (Some (blank w (cv_height cv))) default_context.

Definition set_height (h : Z) (cv : Canvas) : Canvas :=
  mkCanvas (cv_width cv) h (Some (blank (cv_width cv) h)) default_context.

Definition with_state (f : DrawState -> DrawState) (cv : Canvas) : Canvas :=
  mkCanvas (cv_width cv) (cv_height cv) (cv_data cv)
           (mkContext (f (ctx_state (cv_ctx cv))) (ctx_stack (cv_ctx cv))).

Definition with_ctm (f : Matrix -> option Matrix) (cv : Canvas) : Canvas :=
  with_state (fun s => mkDrawState (ds_filter s)
                         (match ds_ctm s with Some m => f m | None => None end)) cv.

(** Assigning [ctx.filter]: a value that does not parse as a filter list is
    ignored and the attribute keeps its value. *)
Definition set_filter (fs : list filter_fn) (cv : Canvas) : Canvas :=
  if forallb filter_fn_valid fs
  then with_state (fun s => mkDrawState fs (ds_ctm s)) cv
  else cv.

Definition ctx_save (cv : Canvas) : Canvas :=
  mkCanvas (cv_width cv) (cv_height cv) (cv_data cv)
           (mkContext (ctx_state (cv_ctx cv))
                      (ctx_state (cv_ctx cv) :: ctx_stack (cv_ctx cv))).

Definition ctx_restore (cv : Canvas) : Canvas :=
  match ctx_stack (cv_ctx cv) with
  | [] => cv
  | s :: rest =>
      mkCanvas (cv_width cv) (cv_height cv) (cv_data cv) (mkContext s rest)
  end.

(** The three transformation methods multiply the current matrix on the
    RIGHT by the new transformation. *)
Definition ctx_translate (tx2 ty2 : Z) : Canvas -> Canvas :=
  with_ctm (fun m => Some (mkMatrix (ma m) (mb m) (mc m) (md m)
                             (ma m * tx2 + mc m * ty2 + me m)
                             (mb m * tx2 + md m * ty2 + mf m))).

(** (cos, sin) of an angle in degrees, at the quarter turns. *)
Definition cos_sin (degrees : Z) : option (Z * Z) :=
  let r := degrees mod 360 in
  if r =? 0 then Some (1, 0)
  else if r =? 90 then Some (0, 1)
  else if r =? 180 then Some (-1, 0)
  else if r =? 270 then Some (0, -1)
  else None.

(** [ctx.rotate(degrees * Math.PI / 180)]: clockwise on the screen. *)
Definition ctx_rotate (degrees : Z) : Canvas -> Canvas :=
  with_ctm (fun m =>
    match cos_sin degrees with
    | Some (c, s) =>
        Some (mkMatrix (ma m * c + mc m * s) (mb m * c + md m * s)
                       (mc m * c - ma m * s) (md m * c - mb m * s)
                       (me m) (mf m))
    | None => None
    end).

Definition ctx_scale (sx sy : Z) : Canvas -> Canvas :=
  with_ctm (fun m => Some (mkMatrix (ma m * sx) (mb m * sx)
                                    (mc m * sy) (md m * sy) (me m) (mf m))).

Definition det (m : Matrix) : Z := ma m * md m - mb m * mc m.

(** The point of the image, in half pixels from its top-left corner, that
    the matrix sends to the centre of canvas pixel (x, y), when the image is
    drawn with its corner at (dx2, dy2).  The matrix is inverted as for
    determinant 1 or -1. *)
Definition source_point (m : Matrix) (dx2 dy2 x y : Z) : Z * Z :=
  let px := 2 * x + 1 - me m in
  let py := 2 * y + 1 - mf m in
  (det m * (md m * px - mc m * py) - dx2,
   det m * (ma m * py - mb m * px) - dy2).

(** Pixel centres go to pixel centres: the matrix only turns and mirrors,
    and the source points have odd half-pixel coordinates (for one pixel,
    hence for all of them). *)
Definition aligned (m : Matrix) (dx2 dy2 : Z) : bool :=
  (Z.abs (det m) =? 1)
  && Z.odd (fst (source_point m dx2 dy2 0 0))
  && Z.odd (snd (source_point m dx2 dy2 0 0)).

(** The image as the matrix places it on a transparent [w] x [h] layer. *)
Definition draw_layer (m : Matrix) (img : Bitmap) (dx2 dy2 w h : Z) : Bitmap :=
  mkBitmap w h
    (raster w h (fun x y =>
       let s := source_point m dx2 dy2 x y in
       get_pixel img (fst s / 2) (snd s / 2))).

(** The form in which the bitmap of a canvas stores a pixel: each colour
    multiplied by alpha/255, rounded to 8 bits. *)
Definition premultiply (p : pixel) : pixel :=
  mkPixel (round_div (red p * alpha p) 255) (round_div (green p * alpha p) 255)
          (round_div (blue p * alpha p) 255) (alpha p).

(** The pixel read back from its stored form: each colour divided by
    alpha/255, rounded; a pixel of alpha 0 is transparent black. *)
Definition unpremultiply (p : pixel) : pixel :=
  if alpha p =? 0 then transparent
  else mkPixel (clamp255 (round_div (red p * 255) (alpha p)))
               (clamp255 (round_div (green p * 255) (alpha p)))
               (clamp255 (round_div (blue p * 255) (alpha p)))
               (alpha p).

(** Source-over compositing of one stored pixel onto another: on
    premultiplied channels, top + bottom * (1 - alpha of top). *)
Definition source_over (top bottom : pixel) : pixel :=
  let over ch := ch top + round_div (ch bottom * (255 - alpha top)) 255 in
  mkPixel (over red) (over green) (over blue) (over alpha).

Definition composite (top bottom : list pixel) : list pixel :=
  map (fun tb => source_over (fst tb) (snd tb)) (combine top bottom).

(** [ctx.drawImage(img, dx, dy)]: the image is placed by the current
    matrix, the current filter is applied to the placed image, and the
    result, premultiplied, is composited onto the bitmap of the canvas. *)
Definition ctx_drawImage (img : Bitmap) (dx2 dy2 : Z) (cv : Canvas) : Canvas :=
  let s := ctx_state (cv_ctx cv) in
  let data :=
    match ds_ctm s, cv_data cv with
    | Some m, Some old =>
        if aligned m dx2 dy2
        then Some (composite
                     (map premultiply
                        (bm_data (apply_filters (ds_filter s)
                           (draw_layer m img dx2 dy2 (cv_width cv) (cv_height cv)))))
                     old)
        else None
    | _, _ => None
    end in
  mkCanvas (cv_width cv) (cv_height cv) data (cv_ctx cv).

(** ** The state of the component *)

Record Adjustments : Type := mkAdjustments {
  brightness : Z;
  contrast : Z;
  saturation : Z;
  blur : Z
}.

(** [keyof Adjustments]. *)
Inductive AdjustmentKey : Type := KBrightness | KContrast | KSaturation | KBlur.

Definition adjustment (k : AdjustmentKey) (a : Adjustments) : Z :=
  match k with
  | KBrightness => brightness a
  | KContrast => contrast a
  | KSaturation => saturation a
  | KBlur => blur a
  end.

Record Flip : Type := mkFlip { horizontal : bool; vertical : bool }.

(** The four [useState] cells.  The data URL in [image] is identified with
    the bitmap it decodes to. *)
Record AppState : Type := mkAppState {
  image : option Bitmap;
  adjustments : Adjustments;
  rotation : Z;
  flip : Flip
}.

(** The initial values of the [useState] cells. *)
Definition default_adjustments : Adjustments := mkAdjustments 100 100 100 0.
Definition no_flip : Flip := mkFlip false false.

Definition initial_state : AppState :=
  mkAppState None default_adjustments 0 no_flip.

(** A call returns or throws. *)
Inductive completion (A : Type) : Type :=
| Normal (a : A)
| Throw (error : string).
Arguments Normal {A} a.
Arguments Throw {A} error.

Declare Scope canvas_scope.
Notation "cv |> f" := (f cv) (at level 45, left associativity, only parsing) : canvas_scope.
Open Scope canvas_scope.

(** [applyFilters], with the body of [img.onload] run in place: the canvas
    reference before the call, and after it. *)
Definition applyFilters (st : AppState) (canvasRef : option Canvas)
  : completion (option Canvas) :=
  match canvasRef with
  | None => Normal None
  | Some canvas =>
      match getContext canvas, image st with
      | Some _, Some img =>
          let sized := canvas |> set_width (bm_width img)
                              |> set_height (bm_height img) in
          Normal (Some (
            sized
            |> set_filter [Brightness (brightness (adjustments st));
                           Contrast (contrast (adjustments st));
                           Saturate (saturation (adjustments st));
                           Blur (blur (adjustments st))]
            |> ctx_save
            |> ctx_translate (cv_width sized) (cv_height sized)
            |> ctx_rotate (rotation st)
            |> ctx_scale (if horizontal (flip st) then -1 else 1)
                         (if vertical (flip st) then -1 else 1)
            |> ctx_drawImage img (- bm_width img) (- bm_height img)
            |> ctx_restore))
      | _, _ => Normal (Some canvas)
      end
  end.

(** ** Event handlers *)

(** The updater of [handleAdjustment]: [{ ...prev, [name]: value }]. *)
Definition handleAdjustment (name : AdjustmentKey) (value : Z)
  (prev : Adjustments) : Adjustments :=
  match name with
  | KBrightness => mkAdjustments value (contrast prev) (saturation prev) (blur prev)
  | KContrast => mkAdjustments (brightness prev) value (saturation prev) (blur prev)
  | KSaturation => mkAdjustments (brightness prev) (contrast prev) value (blur prev)
  | KBlur => mkAdjustments (brightness prev) (contrast prev) (saturation prev) value
  end.

(** The updater of the Rotate button: [r => (r + 90) % 360]. *)
Definition rotate_step (r : Z) : Z := Z.rem (r + 90) 360.

(** The updaters of the two flip buttons. *)
Definition flip_horizontal (f : Flip) : Flip := mkFlip (negb (horizontal f)) (vertical f).
Definition flip_vertical (f : Flip) : Flip := mkFlip (horizontal f) (negb (vertical f)).

Inductive event : Type :=
| Upload (img : Bitmap)
| Adjust (name : AdjustmentKey) (value : Z)
| Rotate
| FlipH
| FlipV.

Definition handle (ev : event) (st : AppState) : AppState :=
  match ev with
  | Upload img => mkAppState (Some img) (adjustments st) (rotation st) (flip st)
  | Adjust name value =>
      mkAppState (image st) (handleAdjustment name value (adjustments st))
                 (rotation st) (flip st)
  | Rotate => mkAppState (image st) (adjustments st) (rotate_step (rotation st)) (flip st)
  | FlipH => mkAppState (image st) (adjustments st) (rotation st) (flip_horizontal (flip st))
  | FlipV => mkAppState (image st) (adjustments st) (rotation st) (flip_vertical (flip st))
  end.

(** The component between two events: its state and the canvas element, which
    is only rendered once there is an image. *)
Record World : Type := mkWorld {
  app : AppState;
  canvasRef : option Canvas
}.

Definition initial_world : World := mkWorld initial_state None.

Definition mount (st : AppState) (ref : option Canvas) : option Canvas :=
  match image st, ref with
  | Some _, None => Some default_canvas
  | _, _ => ref
  end.

(** The effect [useEffect(() => applyFilters(), [applyFilters])]. *)
Definition run_effect (st : AppState) (ref : option Canvas) : option Canvas :=
  match applyFilters st ref with
  | Normal ref' => ref'
  | Throw _ => ref
  end.

(** One event: the handler updates the state, the component renders, the
    effect redraws. *)
Definition step (w : World) (ev : event) : World :=
  let st := handle ev (app w) in
  mkWorld st (run_effect st (mount st (canvasRef w))).

Definition run (evs : list event) (w : World) : World := fold_left step evs w.

(** ** The geometric operations as the specification words them

    "For k=1 (90 degrees clockwise), output pixel (x,y) = input pixel
    (y, height-1-x); for k=2, output(x,y) = input(width-1-x, height-1-y);
    for k=3, output(x,y) = input(width-1-y, x)."  "Horizontal flip:
    output(x,y) = input(width-1-x, y).  Vertical flip: output(x,y) =
    input(x, height-1-y)."  The quarter turns swap width and height. *)

Definition spec_rotate (k : Z) (b : Bitmap) : Bitmap :=
  let w := bm_width b in
  let h := bm_height b in
  if k =? 1 then mkBitmap h w (raster h w (fun x y => get_pixel b y (h - 1 - x)))
  else if k =? 2 then mkBitmap w h (raster w h (fun x y => get_pixel b (w - 1 - x) (h - 1 - y)))
  else if k =? 3 then mkBitmap h w (raster h w (fun x y => get_pixel b (w - 1 - y) x))
  else b.

Definition spec_flip_h (b : Bitmap) : Bitmap :=
  mkBitmap (bm_width b) (bm_height b)
    (raster (bm_width b) (bm_height b) (fun x y => get_pixel b (bm_width b - 1 - x) y)).

Definition spec_flip_v (b : Bitmap) : Bitmap :=
  mkBitmap (bm_width b) (bm_height b)
    (raster (bm_width b) (bm_height b) (fun x y => get_pixel b x (bm_height b - 1 - y))).

Definition spec_flips (fl : Flip) (b : Bitmap) : Bitmap :=
  let b1 := if horizontal fl then spec_flip_h b else b in
  if vertical fl then spec_flip_v b1 else b1.

(** Rotation first, then the horizontal flip, then the vertical flip. *)
Definition rotate_then_flip (k : Z) (fl : Flip) (b : Bitmap) : Bitmap :=
  spec_flips fl (spec_rotate k b).

(** The flips first, in the frame of the source, then the rotation. *)
Definition flip_then_rotate (k : Z) (fl : Flip) (b : Bitmap) : Bitmap :=
  spec_rotate k (spec_flips fl b).

(** The [w] x [h] window centred on a bitmap: what a canvas of that size
    shows of a picture drawn about its centre. *)
Definition centred_window (w h : Z) (b : Bitmap) : list pixel :=
  raster w h (fun x y =>
    get_pixel b (x + (bm_width b - w) / 2) (y + (bm_height b - h) / 2)).

(** ** What [applyFilters] draws, in closed form *)

(** The matrix at the call of [drawImage]: translation to the centre, then
    the rotation, then the scaling, each multiplied on the right. *)
Definition transform_matrix (w h rot : Z) (fl : Flip) : option Matrix :=
  match cos_sin rot with
  | Some (c, s) =>
      let sx := if horizontal fl then -1 else 1 in
      let sy := if vertical fl then -1 else 1 in
      Some (mkMatrix (c * sx) (s * sx) (- s * sy) (c * sy) w h)
  | None => None
  end.

(** The source image as placed on the canvas, before any filter. *)
Definition transformed (img : Bitmap) (rot : Z) (fl : Flip) : option Bitmap :=
  let w := bm_width img in
  let h := bm_height img in
  match transform_matrix w h rot fl with
  | Some m => if aligned m (- w) (- h)
              then Some (draw_layer m img (- w) (- h) w h)
              else None
  | None => None
  end.

(** The filter list the context holds after the assignment in
    [applyFilters]. *)
Definition installed_filter (a : Adjustments) : list filter_fn :=
  let fs := [Brightness (brightness a); Contrast (contrast a);
             Saturate (saturation a); Blur (blur a)] in
  if forallb filter_fn_valid fs then fs else [].

(** [canvas.toDataURL()], read back as a bitmap: the stored pixels, no
    longer premultiplied. *)
Definition toDataURL (cv : Canvas) : option Bitmap :=
  option_map (fun data => mkBitmap (cv_width cv) (cv_height cv) (map unpremultiply data))
             (cv_data cv).

(** A grid has one pixel per cell. *)
Definition shaped (b : Bitmap) : Prop :=
  length (bm_data b) = Z.to_nat (bm_width b * bm_height b).

(** The canvas [applyFilters] leaves behind for a given image and given
    parameters. *)
Definition pipeline (img : Bitmap) (a : Adjustments) (rot : Z) (fl : Flip) : Canvas :=
  mkCanvas (bm_width img) (bm_height img)
    (option_map (fun placed =>
                   map premultiply (bm_data (apply_filters (installed_filter a) placed)))
                (transformed img rot fl))
    (mkContext (mkDrawState (installed_filter a) (Some identity_matrix)) []).

(** The filter list of the initial adjustments. *)
Definition neutral_filter : list filter_fn :=
  [Brightness 100; Contrast 100; Saturate 100; Blur 0].

(** The four angles the Rotate button cycles through. *)
Definition quarter_angle (rot : Z) : Prop := In rot [0; 90; 180; 270].

(** The number of quarter turns of an angle. *)
Definition quarter_turns (rot : Z) : Z := (rot mod 360) / 90.

(** The nominal ranges of the four sliders. *)
Definition in_range (a : Adjustments) : Prop :=
  0 <= brightness a <= 200 /\ 0 <= contrast a <= 200 /\
  0 <= saturation a <= 200 /\ 0 <= blur a <= 20.

(** ** Statements of the specification that the code does not meet *)

(** "For a W x H source, 90 or 270 degree rotation produces an H x W
    output; 0/180 preserves W x H." *)
Definition swapped_size (rot : Z) (img : Bitmap) : Z * Z :=
  if (rot =? 90) || (rot =? 270)
  then (bm_height img, bm_width img)
  else (bm_width img, bm_height img).

Definition dimension_swap_law : Prop :=
  forall st img cv c,
    bitmap_wf img ->
    image st = Some img ->
    quarter_angle (rotation st) ->
    applyFilters st (Some cv) = Normal (Some c) ->
    (cv_width c, cv_height c) = swapped_size (rotation st) img.

(** "Rotation first, then horizontal flip, then vertical flip", for a
    rotation other than 180 degrees combined with a flip. *)
Definition rotate_then_flip_law : Prop :=
  forall img rot fl cv c,
    bitmap_wf img ->
    In rot [0; 90; 270] ->
    horizontal fl || vertical fl = true ->
    applyFilters (mkAppState (Some img) default_adjustments rot fl) (Some cv)
      = Normal (Some c) ->
    toDataURL c = Some (rotate_then_flip (quarter_turns rot) fl img).

(** "Fails with InvalidParameter when brightness/contrast/saturation fall
    outside [0,200] or blur falls outside [0,20]." *)
Definition range_check_law : Prop :=
  forall st img cv,
    image st = Some img ->
    ~ in_range (adjustments st) ->
    exists error, applyFilters st (Some cv) = Throw error.

(** The flip flags as they read on the rotated picture: after a quarter
    turn the horizontal axis of the source is the vertical one of the
    picture, so the two flags change places. *)
Definition flags_after_rotation (rot : Z) (fl : Flip) : Flip :=
  if (quarter_turns rot =? 1) || (quarter_turns rot =? 3)
  then mkFlip (vertical fl) (horizontal fl)
  else fl.

(** An image without transparency: every pixel has alpha 255. *)
Definition opaque (b : Bitmap) : Prop :=
  Forall (fun p => alpha p = 255) (bm_data b).

(** The pixels the bitmap of a canvas keeps as they are: 8-bit channels,
    and alpha 255 or transparent black. *)
Definition kept_exactly (p : pixel) : Prop :=
  pixel_ok p /\ (alpha p = 255 \/ p = transparent).

(** "AdjustmentParameters{100,100,100,0} composed with
    TransformState{0,false,false} yields an output bitmap identical to the
    source", for every source bitmap. *)
Definition identity_law : Prop :=
  forall img cv c,
    bitmap_wf img ->
    applyFilters (mkAppState (Some img) default_adjustments 0 no_flip) (Some cv)
      = Normal (Some c) ->
    toDataURL c = Some img.

(** "For all bitmaps, flipping horizontally twice (or vertically twice)
    returns the original bitmap exactly": the bitmap is drawn with the flip,
    and what the canvas gives back is drawn with the same flip. *)
Definition flip_twice_law : Prop :=
  forall img fl cv cv' c1 once c2,
    bitmap_wf img ->
    fl = flip_horizontal no_flip \/ fl = flip_vertical no_flip ->
    applyFilters (mkAppState (Some img) default_adjustments 0 fl) (Some cv)
      = Normal (Some c1) ->
    toDataURL c1 = Some once ->
    applyFilters (mkAppState (Some once) default_adjustments 0 fl) (Some cv')
      = Normal (Some c2) ->
    toDataURL c2 = Some img.

(** ** Sample inputs *)

Definition sample_pixel (n : Z) : pixel := mkPixel n n n 255.

(** A 2 x 1 image and a 2 x 2 image with four different pixels. *)
Definition wide_image : Bitmap :=
  mkBitmap 2 1 [sample_pixel 10; sample_pixel 20].

Definition square_image : Bitmap :=
  mkBitmap 2 2 [sample_pixel 10; sample_pixel 20; sample_pixel 30; sample_pixel 40].

Definition empty_canvas : Canvas := mkCanvas 0 0 (Some []) default_context.

(** One-pixel images that are not opaque. *)
Definition faint_image : Bitmap := mkBitmap 1 1 [mkPixel 100 50 25 2].

Definition veiled_image : Bitmap := mkBitmap 1 1 [mkPixel 200 100 50 128].

(** ** The page: what the rendered controls can do

    The JSX renders the file input only while [image] is null, and the
    canvas with the sliders, the three transform buttons and the download
    button only once it is set.  A slider is an [<input type="range">] with
    the [min] and [max] below; it reports a value between the two. *)

Definition slider_min (name : AdjustmentKey) : Z :=
  match name with KBlur => 0 | _ => 0 end.

Definition slider_max (name : AdjustmentKey) : Z :=
  match name with KBlur => 20 | _ => 200 end.

(** Whether the page, in a given state, has a control that produces the
    event. *)
Definition enabled (st : AppState) (ev : event) : bool :=
  match image st, ev with
  | None, Upload _ => true
  | None, _ => false
  | Some _, Upload _ => false
  | Some _, Adjust name value =>
      (slider_min name <=? value) && (value <=? slider_max name)
  | Some _, (Rotate | FlipH | FlipV) => true
  end.

(** A session at the page: every event has to be one the page offers at
    that moment. *)
Fixpoint ui_run (evs : list event) (w : World) : option World :=
  match evs with
  | [] => Some w
  | ev :: rest =>
      if enabled (app w) ev then ui_run rest (step w ev) else None
  end.

(** [handleDownload]: nothing without a canvas; otherwise the link that is
    clicked, as its [download] name and the bitmap behind its [href]. *)
Definition handleDownload (ref : option Canvas) : option (string * option Bitmap) :=
  match ref with
  | None => None
  | Some canvas => Some ("edited-image.png"%string, toDataURL canvas)
  end.

(** The lines of [applyFilters] from [ctx.save()] to [ctx.restore()], on a
    canvas in any state. *)
Definition draw_block (st : AppState) (img : Bitmap) (cv : Canvas) : Canvas :=
  cv
  |> ctx_save
  |> ctx_translate (cv_width cv) (cv_height cv)
  |> ctx_rotate (rotation st)
  |> ctx_scale (if horizontal (flip st) then -1 else 1)
               (if vertical (flip st) then -1 else 1)
  |> ctx_drawImage img (- bm_width img) (- bm_height img)
  |> ctx_restore.

(** The canvas the page shows in a given state: none before the upload,
    afterwards the one [applyFilters] draws. *)
Definition shown (st : AppState) : option Canvas :=
  match image st with
  | Some img => Some (pipeline img (adjustments st) (rotation st) (flip st))
  | None => None
  end.

Definition is_upload (ev : event) : bool :=
  match ev with Upload _ => true | _ => false end.

(** The square of side min(w, h) in the middle of a [w] x [h] grid. *)
Definition central_square (w h x y : Z) : Prop :=
  (w - Z.min w h) / 2 <= x < (w + Z.min w h) / 2 /\
  (h - Z.min w h) / 2 <= y < (h + Z.min w h) / 2.

(** Counting the events of one kind in a session. *)
Definition is_rotate (ev : event) : bool :=
  match ev with Rotate => true | _ => false end.

Definition is_flip_h (ev : event) : bool :=
  match ev with FlipH => true | _ => false end.

Definition is_flip_v (ev : event) : bool :=
  match ev with FlipV => true | _ => false end.

Definition count (p : event -> bool) (evs : list event) : nat :=
  length (filter p evs).

Definition key_eqb (a b : AdjustmentKey) : bool :=
  match a, b with
  | KBrightness, KBrightness | KContrast, KContrast
  | KSaturation, KSaturation | KBlur, KBlur => true
  | _, _ => false
  end.

(** Whether an event moves the slider [k]. *)
Definition moves_slider (k : AdjustmentKey) (ev : event) : bool :=
  match ev with Adjust name _ => key_eqb name k | _ => false end.

(** Whether an event is one of the three transform buttons. *)
Definition is_transform (ev : event) : bool :=
  match ev with Rotate | FlipH | FlipV => true | _ => false end.

(** ** The adjustments as the JavaScript object they are

    An object lists its string keys in insertion order.  Writing a key it
    has replaces the value in place; writing a new key appends it. *)

Definition JsObject : Type := list (string * Z).

Fixpoint js_assign (key : string) (value : Z) (o : JsObject) : JsObject :=
  match o with
  | [] => [(key, value)]
  | (k, v) :: rest =>
      if String.eqb k key then (k, value) :: rest
      else (k, v) :: js_assign key value rest
  end.

Fixpoint js_lookup (key : string) (o : JsObject) : option Z :=
  match o with
  | [] => None
  | (k, v) :: rest => if String.eqb k key then Some v else js_lookup key rest
  end.

Definition key_name (k : AdjustmentKey) : string :=
  match k with
  | KBrightness => "brightness"
  | KContrast => "contrast"
  | KSaturation => "saturation"
  | KBlur => "blur"
  end.

(** [Object.entries(adjustments)], which the page maps to its sliders. *)
Definition entries (a : Adjustments) : JsObject :=
  [("brightness"%string, brightness a); ("contrast"%string, contrast a);
   ("saturation"%string, saturation a); ("blur"%string, blur a)].

(** ** Grids *)

Lemma zseq_length n : length (zseq n) = Z.to_nat n.
Proof. unfold zseq. now rewrite length_map, length_seq. Qed.

Lemma raster_length w h f : length (raster w h f) = Z.to_nat (w * h).
Proof. unfold raster. now rewrite length_map, zseq_length. Qed.

Lemma nth_raster w h f i d :
  (i < Z.to_nat (w * h))%nat ->
  nth i (raster w h f) d = f (Z.of_nat i mod w) (Z.of_nat i / w).
Proof.
  intros Hi. unfold raster, zseq. rewrite map_map.
  set (g := fun k : nat => f (Z.of_nat k mod w) (Z.of_nat k / w)).
  rewrite (nth_indep _ d (g 0%nat)) by now rewrite length_map, length_seq.
  rewrite map_nth, seq_nth by assumption. reflexivity.
Qed.

Lemma raster_ext w h f g :
  0 <= h ->
  (forall x y, 0 <= x < w -> 0 <= y < h -> f x y = g x y) ->
  raster w h f = raster w h g.
Proof.
  intros Hh Hfg. unfold raster, zseq. rewrite !map_map.
  apply map_ext_in. intros k Hk. apply in_seq in Hk.
  destruct (Z_lt_le_dec 0 w) as [Hw | Hw].
  - apply Hfg.
    + apply Z.mod_pos_bound; lia.
    + split; [apply Z.div_pos; lia | apply Z.div_lt_upper_bound; lia].
  - exfalso. assert (w * h <= 0) by nia. lia.
Qed.

Lemma cell_index w x y :
  0 <= x < w -> (y * w + x) mod w = x /\ (y * w + x) / w = y.
Proof.
  intros Hx. split.
  - rewrite Z.add_comm, Z.mod_add by lia. apply Z.mod_small; lia.
  - rewrite Z.add_comm, Z.div_add by lia. rewrite Z.div_small by lia. lia.
Qed.

Lemma in_bounds_true w h x y :
  in_bounds w h x y = true <-> 0 <= x < w /\ 0 <= y < h.
Proof. unfold in_bounds. rewrite !andb_true_iff, !Z.leb_le, !Z.ltb_lt. lia. Qed.

Lemma in_bounds_false w h x y :
  in_bounds w h x y = false <-> ~ (0 <= x < w /\ 0 <= y < h).
Proof.
  rewrite <- in_bounds_true. destruct (in_bounds w h x y); split; congruence.
Qed.

Lemma get_pixel_raster w h f x y :
  get_pixel (mkBitmap w h (raster w h f)) x y =
  if in_bounds w h x y then f x y else transparent.
Proof.
  unfold get_pixel; cbn [bm_width bm_height bm_data].
  destruct (in_bounds w h x y) eqn:Hb; [| reflexivity].
  apply in_bounds_true in Hb. destruct Hb as [Hx Hy].
  rewrite nth_raster by nia.
  rewrite Z2Nat.id by nia.
  destruct (cell_index w x y Hx) as [-> ->]. reflexivity.
Qed.

Lemma raster_get_pixel b :
  0 < bm_width b -> shaped b ->
  raster (bm_width b) (bm_height b) (get_pixel b) = bm_data b.
Proof.
  intros Hw Hs. unfold shaped in Hs.
  apply (nth_ext _ _ transparent transparent).
  - now rewrite raster_length.
  - intros i Hi. rewrite raster_length in Hi. rewrite nth_raster by assumption.
    set (w := bm_width b) in *. set (h := bm_height b) in *.
    assert (Hwh : 0 < w * h) by lia.
    assert (Hi' : 0 <= Z.of_nat i < w * h) by lia.
    assert (Hx : 0 <= Z.of_nat i mod w < w) by (apply Z.mod_pos_bound; lia).
    assert (Hy : 0 <= Z.of_nat i / w < h)
      by (split; [apply Z.div_pos; lia | apply Z.div_lt_upper_bound; lia]).
    unfold get_pixel. fold w h.
    rewrite (proj2 (in_bounds_true w h _ _) (conj Hx Hy)).
    f_equal. pose proof (Z.div_mod (Z.of_nat i) w). lia.
Qed.

(** ** The filters at their neutral values *)

Lemma round_div_exact v d : 0 < d -> round_div (v * d) d = v.
Proof.
  intros Hd. unfold round_div. symmetry.
  apply (Z.div_unique _ _ v d); lia.
Qed.

Lemma clamp255_id v : channel_ok v -> clamp255 v = v.
Proof. unfold channel_ok, clamp255. lia. Qed.

Lemma brightness_channel_100 v : channel_ok v -> brightness_channel 100 v = v.
Proof.
  intros Hv. unfold brightness_channel.
  now rewrite round_div_exact, clamp255_id by (assumption || lia).
Qed.

Lemma contrast_channel_100 v : channel_ok v -> contrast_channel 100 v = v.
Proof.
  intros Hv. unfold contrast_channel. rewrite round_div_exact by lia.
  replace (128 + (v - 128)) with v by lia. now apply clamp255_id.
Qed.

Lemma brightness_pixel_100 p : pixel_ok p -> brightness_pixel 100 p = p.
Proof.
  intros (Hr & Hg & Hb & _). destruct p as [r g b a]. unfold brightness_pixel.
  cbn [red green blue alpha] in *.
  now rewrite !brightness_channel_100 by assumption.
Qed.

Lemma contrast_pixel_100 p : pixel_ok p -> contrast_pixel 100 p = p.
Proof.
  intros (Hr & Hg & Hb & _). destruct p as [r g b a]. unfold contrast_pixel.
  cbn [red green blue alpha] in *.
  now rewrite !contrast_channel_100 by assumption.
Qed.

Lemma saturate_channel_100 p v : channel_ok v -> saturate_channel 100 p v = v.
Proof.
  intros Hv. unfold saturate_channel.
  replace (luminance1000 p * (100 - 100) + 1000 * v * 100) with (v * 100000) by lia.
  now rewrite round_div_exact, clamp255_id by (assumption || lia).
Qed.

Lemma saturate_pixel_100 p : pixel_ok p -> saturate_pixel 100 p = p.
Proof.
  intros (Hr & Hg & Hb & _). destruct p as [r g b a]. unfold saturate_pixel.
  cbn [red green blue alpha] in *.
  now rewrite !saturate_channel_100 by assumption.
Qed.

Lemma map_pixels_id f b :
  Forall (fun p => f p = p) (bm_data b) -> map_pixels f b = b.
Proof.
  intros Hf. destruct b as [w h data]. unfold map_pixels; cbn in *. f_equal.
  induction Hf as [| p l Hp _ IH]; cbn; [reflexivity | now rewrite Hp, IH].
Qed.

Lemma apply_filters_neutral b :
  Forall pixel_ok (bm_data b) -> apply_filters neutral_filter b = b.
Proof.
  intros Hok. unfold apply_filters, neutral_filter; cbn [fold_left apply_filter_fn].
  rewrite (map_pixels_id (brightness_pixel 100))
    by (eapply Forall_impl; [| exact Hok]; apply brightness_pixel_100).
  rewrite (map_pixels_id (contrast_pixel 100))
    by (eapply Forall_impl; [| exact Hok]; apply contrast_pixel_100).
  rewrite (map_pixels_id (saturate_pixel 100))
    by (eapply Forall_impl; [| exact Hok]; apply saturate_pixel_100).
  reflexivity.
Qed.

(** ** Filters keep the shape of the grid *)

Lemma apply_filter_fn_size f b :
  bm_width (apply_filter_fn f b) = bm_width b /\
  bm_height (apply_filter_fn f b) = bm_height b.
Proof.
  destruct f; cbn; auto. unfold blur_bitmap. destruct (px <=? 0); auto.
Qed.

Lemma apply_filter_fn_shaped f b : shaped b -> shaped (apply_filter_fn f b).
Proof.
  unfold shaped. intros Hs.
  destruct f; cbn; rewrite ?length_map; auto.
  unfold blur_bitmap. destruct (px <=? 0); cbn; auto using raster_length.
Qed.

Lemma apply_filters_shaped fs : forall b,
  shaped b ->
  shaped (apply_filters fs b) /\
  bm_width (apply_filters fs b) = bm_width b /\
  bm_height (apply_filters fs b) = bm_height b.
Proof.
  induction fs as [| f fs IH]; intros b Hs; cbn; [auto |].
  destruct (IH (apply_filter_fn f b) (apply_filter_fn_shaped f b Hs)) as (H1 & H2 & H3).
  destruct (apply_filter_fn_size f b) as [Hw Hh].
  unfold apply_filters in *. repeat split; congruence.
Qed.

Lemma draw_layer_shaped m img dx2 dy2 w h : shaped (draw_layer m img dx2 dy2 w h).
Proof. unfold shaped, draw_layer; cbn. apply raster_length. Qed.

(** ** Drawing onto a cleared canvas *)

Lemma source_over_clear top : source_over top transparent = top.
Proof.
  destruct top as [r g b a]. unfold source_over, transparent.
  cbn [red green blue alpha]. change (round_div (0 * (255 - a)) 255) with 0.
  now rewrite !Z.add_0_r.
Qed.

Lemma composite_clear top : forall bottom,
  length bottom = length top ->
  Forall (fun p => p = transparent) bottom ->
  composite top bottom = top.
Proof.
  unfold composite.
  induction top as [| t top IH]; intros [| b bottom] Hlen Hclear; cbn in *;
    try reflexivity; try discriminate.
  inversion Hclear as [| ? ? Hb Hrest]; subst.
  rewrite source_over_clear.
  f_equal. apply IH; [lia | assumption].
Qed.

Lemma blank_clear w h : Forall (fun p => p = transparent) (blank w h).
Proof.
  unfold blank, raster. apply Forall_forall. intros p Hp.
  apply in_map_iff in Hp. destruct Hp as (? & <- & _). reflexivity.
Qed.

Lemma composite_blank w h top :
  length top = Z.to_nat (w * h) -> composite top (blank w h) = top.
Proof.
  intros Hlen. apply composite_clear; [| apply blank_clear].
  unfold blank. now rewrite raster_length.
Qed.

(** ** The canvas after [applyFilters] *)

Lemma filtered_layer_length fs m img dx2 dy2 w h :
  length (bm_data (apply_filters fs (draw_layer m img dx2 dy2 w h))) = Z.to_nat (w * h).
Proof.
  destruct (apply_filters_shaped fs _ (draw_layer_shaped m img dx2 dy2 w h))
    as (Hs & Hw & Hh).
  unfold shaped in Hs. rewrite Hs, Hw, Hh. reflexivity.
Qed.

Lemma applyFilters_draws st img cv :
  image st = Some img ->
  applyFilters st (Some cv) =
  Normal (Some (pipeline img (adjustments st) (rotation st) (flip st))).
Proof.
  intros Himg. unfold applyFilters. rewrite Himg.
  cbv [getContext]. do 2 f_equal.
  unfold pipeline, set_filter, installed_filter, transformed, transform_matrix.
  destruct (forallb filter_fn_valid _) eqn:Hv;
    cbv [set_width set_height with_state ctx_save ctx_translate ctx_rotate
         ctx_scale with_ctm ctx_restore ctx_drawImage
         cv_width cv_height cv_data cv_ctx ctx_state ctx_stack ds_filter ds_ctm
         default_context identity_matrix ma mb mc md me mf];
    (destruct (cos_sin (rotation st)) as [[c s] |]; [| reflexivity]);
    set (sx := if horizontal (flip st) then -1 else 1);
    set (sy := if vertical (flip st) then -1 else 1);
    set (w := bm_width img); set (h := bm_height img);
    replace (mkMatrix ((1 * c + 0 * s) * sx) ((0 * c + 1 * s) * sx)
                      ((0 * c - 1 * s) * sy) ((1 * c - 0 * s) * sy)
                      (1 * w + 0 * h + 0) (0 * w + 1 * h + 0))
      with (mkMatrix (c * sx) (s * sx) (- s * sy) (c * sy) w h)
      by (f_equal; ring);
    (destruct (aligned _ (- w) (- h)); [| reflexivity]);
    cbn [option_map]; do 2 f_equal;
    apply composite_blank; rewrite length_map; apply filtered_layer_length.
Qed.

(** ** The placement of the image, pixel by pixel *)

Lemma cos_sin_cases rot c s :
  cos_sin rot = Some (c, s) ->
  (rot mod 360 = 0 /\ c = 1 /\ s = 0) \/
  (rot mod 360 = 90 /\ c = 0 /\ s = 1) \/
  (rot mod 360 = 180 /\ c = -1 /\ s = 0) \/
  (rot mod 360 = 270 /\ c = 0 /\ s = -1).
Proof.
  unfold cos_sin.
  destruct (Z.eqb_spec (rot mod 360) 0); [intros [= <- <-]; auto |].
  destruct (Z.eqb_spec (rot mod 360) 90); [intros [= <- <-]; auto |].
  destruct (Z.eqb_spec (rot mod 360) 180); [intros [= <- <-]; auto 6 |].
  destruct (Z.eqb_spec (rot mod 360) 270); [intros [= <- <-]; auto 6 |].
  discriminate.
Qed.

Lemma odd_mod2 e : e mod 2 = 1 -> Z.odd e = true.
Proof. rewrite Zmod_odd. destruct (Z.odd e); [reflexivity | discriminate]. Qed.

Lemma get_pixel_outside b x y :
  ~ (0 <= x < bm_width b /\ 0 <= y < bm_height b) -> get_pixel b x y = transparent.
Proof.
  intros H. unfold get_pixel. now rewrite (proj2 (in_bounds_false _ _ _ _) H).
Qed.

Lemma get_pixel_eq b x y x' y' :
  x = x' -> y = y' -> get_pixel b x y = get_pixel b x' y'.
Proof. now intros -> ->. Qed.

(** [source_point] inverts the matrix: the source point it returns is sent
    to the centre of the canvas pixel. *)
Lemma source_point_inverse m dx2 dy2 x y :
  Z.abs (det m) = 1 ->
  apply_matrix m (fst (source_point m dx2 dy2 x y) + dx2,
                  snd (source_point m dx2 dy2 x y) + dy2)
  = (2 * x + 1, 2 * y + 1).
Proof.
  intros Hdet. unfold apply_matrix, source_point. cbn [fst snd].
  assert (Hsq : det m * det m = 1) by nia.
  set (px := 2 * x + 1 - me m). set (py := 2 * y + 1 - mf m).
  f_equal.
  - replace (ma m * (det m * (md m * px - mc m * py) - dx2 + dx2) +
             mc m * (det m * (ma m * py - mb m * px) - dy2 + dy2) + me m)
      with (det m * det m * px + me m) by (unfold det; ring).
    rewrite Hsq. unfold px. ring.
  - replace (mb m * (det m * (md m * px - mc m * py) - dx2 + dx2) +
             md m * (det m * (ma m * py - mb m * px) - dy2 + dy2) + mf m)
      with (det m * det m * py + mf m) by (unfold det; ring).
    rewrite Hsq. unfold py. ring.
Qed.

(** The grids line up at every pixel as soon as they do at the first. *)
Lemma aligned_everywhere m dx2 dy2 x y :
  aligned m dx2 dy2 = true ->
  Z.odd (fst (source_point m dx2 dy2 x y)) = true /\
  Z.odd (snd (source_point m dx2 dy2 x y)) = true.
Proof.
  unfold aligned. rewrite !andb_true_iff. intros [[_ Hx] Hy].
  unfold source_point in *. cbn [fst snd] in *. split.
  - replace (det m * (md m * (2 * x + 1 - me m) - mc m * (2 * y + 1 - mf m)) - dx2)
      with (det m * (md m * (2 * 0 + 1 - me m) - mc m * (2 * 0 + 1 - mf m)) - dx2
            + 2 * (det m * (md m * x - mc m * y))) by ring.
    now rewrite Z.odd_add_mul_2.
  - replace (det m * (ma m * (2 * y + 1 - mf m) - mb m * (2 * x + 1 - me m)) - dy2)
      with (det m * (ma m * (2 * 0 + 1 - mf m) - mb m * (2 * 0 + 1 - me m)) - dy2
            + 2 * (det m * (ma m * y - mb m * x))) by ring.
    now rewrite Z.odd_add_mul_2.
Qed.

(** The matrix at [drawImage] sends a point of the image through the
    scaling first, then the rotation, then the translation. *)
Lemma transform_matrix_places w h rot fl c s p :
  cos_sin rot = Some (c, s) ->
  exists m, transform_matrix w h rot fl = Some m /\
    apply_matrix m p =
    let flipped := ((if horizontal fl then -1 else 1) * fst p,
                    (if vertical fl then -1 else 1) * snd p) in
    let turned := (c * fst flipped - s * snd flipped,
                   s * fst flipped + c * snd flipped) in
    (fst turned + w, snd turned + h).
Proof.
  intros Hcs. unfold transform_matrix. rewrite Hcs. eexists. split; [reflexivity |].
  unfold apply_matrix. cbn [ma mb mc md me mf fst snd]. f_equal; ring.
Qed.

(** Linear arithmetic with division and remainder by constants. *)
Ltac zdiv := Z.to_euclidean_division_equations; lia.

(** Case analysis on every bounds test of the goal. *)
Ltac split_bounds :=
  repeat match goal with
  | |- context [in_bounds ?w ?h ?x ?y] =>
      let E := fresh "E" in
      destruct (in_bounds w h x y) eqn:E;
      [apply in_bounds_true in E | apply in_bounds_false in E]
  end.

(** Two reads of one bitmap agree: the same cell, or both outside. *)
Ltac same_pixel :=
  first [ reflexivity
        | apply get_pixel_eq; zdiv
        | apply get_pixel_outside; zdiv
        | symmetry; apply get_pixel_outside; zdiv ].

(** One angle and one pair of flags: the matrix is a constant one, the grid
    lines up, and both sides read the same cell of the source. *)
Ltac place_case Hrot Hcs :=
  unfold transformed, transform_matrix, quarter_turns;
  rewrite Hcs, Hrot;
  match goal with
  | |- context [?n / 90] =>
      let k := eval vm_compute in (n / 90) in change (n / 90) with k
  end;
  cbv [horizontal vertical]; cbv iota beta;
  match goal with
  | |- (if ?a then _ else _) = _ =>
      replace a with true
        by (symmetry; unfold aligned, source_point, det;
            cbv [ma mb mc md me mf fst snd];
            rewrite !andb_true_iff; repeat split;
            first [apply odd_mod2; zdiv | reflexivity])
  end;
  unfold draw_layer, centred_window; do 2 f_equal;
  apply raster_ext; [lia |];
  intros x y Hx Hy;
  unfold source_point, det; cbv [ma mb mc md me mf fst snd];
  cbv [flip_then_rotate spec_rotate spec_flips spec_flip_h spec_flip_v
       horizontal vertical];
  cbv iota beta;
  repeat (cbn [bm_width bm_height Z.eqb Pos.eqb fst snd];
          rewrite ?get_pixel_raster);
  split_bounds; same_pixel.

(** At a multiple of 90 degrees, and for a quarter turn when width and
    height have the same parity, the canvas shows the source flipped in its
    own frame and then turned, through the window centred on it. *)
Lemma transformed_quarter img rot fl c s :
  0 < bm_width img -> 0 < bm_height img ->
  cos_sin rot = Some (c, s) ->
  (s <> 0 -> (bm_width img + bm_height img) mod 2 = 0) ->
  transformed img rot fl =
  Some (mkBitmap (bm_width img) (bm_height img)
          (centred_window (bm_width img) (bm_height img)
             (flip_then_rotate (quarter_turns rot) fl img))).
Proof.
  intros Hw Hh Hcs Hpar.
  destruct (cos_sin_cases rot c s Hcs) as [H | [H | [H | H]]];
    destruct H as (Hrot & -> & ->);
    destruct fl as [[] []];
    place_case Hrot Hcs.
Qed.

Lemma centred_window_full b :
  0 < bm_width b -> shaped b ->
  centred_window (bm_width b) (bm_height b) b = bm_data b.
Proof.
  intros Hw Hs. unfold centred_window.
  transitivity (raster (bm_width b) (bm_height b) (get_pixel b));
    [| now apply raster_get_pixel].
  destruct (Z_lt_le_dec (bm_height b) 0) as [Hneg | Hh].
  - unfold raster, zseq.
    replace (Z.to_nat (bm_width b * bm_height b)) with 0%nat by nia. reflexivity.
  - apply raster_ext; [assumption |]. intros x y _ _.
    rewrite !Z.sub_diag. cbn. now rewrite !Z.add_0_r.
Qed.

Lemma get_pixel_ok b x y : Forall pixel_ok (bm_data b) -> pixel_ok (get_pixel b x y).
Proof.
  intros Hok. unfold get_pixel.
  assert (Ht : pixel_ok transparent) by (unfold pixel_ok, channel_ok; cbn; lia).
  destruct (in_bounds _ _ x y); [| exact Ht].
  destruct (nth_in_or_default (Z.to_nat (y * bm_width b + x)) (bm_data b) transparent)
    as [Hin | ->]; [| exact Ht].
  rewrite Forall_forall in Hok. now apply Hok.
Qed.

Lemma raster_ok w h f :
  (forall x y, pixel_ok (f x y)) -> Forall pixel_ok (raster w h f).
Proof.
  intros Hf. unfold raster. apply Forall_forall. intros p Hp.
  apply in_map_iff in Hp. destruct Hp as (i & <- & _). apply Hf.
Qed.

(** ** The operations of the specification keep bitmaps well formed *)

Lemma spec_flip_h_ok b :
  Forall pixel_ok (bm_data b) -> Forall pixel_ok (bm_data (spec_flip_h b)).
Proof. intros Hok. apply raster_ok. intros x y. now apply get_pixel_ok. Qed.

Lemma spec_flip_v_ok b :
  Forall pixel_ok (bm_data b) -> Forall pixel_ok (bm_data (spec_flip_v b)).
Proof. intros Hok. apply raster_ok. intros x y. now apply get_pixel_ok. Qed.

Lemma spec_flips_ok fl b :
  Forall pixel_ok (bm_data b) -> Forall pixel_ok (bm_data (spec_flips fl b)).
Proof.
  intros Hok. unfold spec_flips.
  destruct (horizontal fl), (vertical fl);
    auto using spec_flip_h_ok, spec_flip_v_ok.
Qed.

Lemma spec_rotate_ok k b :
  Forall pixel_ok (bm_data b) -> Forall pixel_ok (bm_data (spec_rotate k b)).
Proof.
  intros Hok. unfold spec_rotate.
  destruct (k =? 1); [| destruct (k =? 2); [| destruct (k =? 3)]];
    try assumption;
    apply raster_ok; intros x y; now apply get_pixel_ok.
Qed.

Lemma spec_flips_size fl b :
  bm_width (spec_flips fl b) = bm_width b /\
  bm_height (spec_flips fl b) = bm_height b.
Proof. unfold spec_flips. destruct (horizontal fl), (vertical fl); auto. Qed.

Lemma spec_flips_shaped fl b : shaped b -> shaped (spec_flips fl b).
Proof.
  intros Hs. unfold spec_flips, shaped.
  destruct (horizontal fl), (vertical fl); cbn; auto using raster_length.
Qed.

Lemma spec_rotate_shaped k b : shaped b -> shaped (spec_rotate k b).
Proof.
  intros Hs. unfold spec_rotate, shaped.
  destruct (k =? 1); [| destruct (k =? 2); [| destruct (k =? 3)]];
    cbn; auto using raster_length.
Qed.

Lemma spec_rotate_square_size k b :
  bm_width b = bm_height b ->
  bm_width (spec_rotate k b) = bm_width b /\
  bm_height (spec_rotate k b) = bm_height b.
Proof.
  intros Hsq. unfold spec_rotate.
  destruct (k =? 1); [| destruct (k =? 2); [| destruct (k =? 3)]]; cbn; auto.
Qed.

Lemma bitmap_eta b : mkBitmap (bm_width b) (bm_height b) (bm_data b) = b.
Proof. now destruct b. Qed.

Lemma wf_shaped b : bitmap_wf b -> shaped b.
Proof. intros (_ & _ & Hlen & _). unfold shaped. lia. Qed.

Lemma spec_flip_h_involutive b : bitmap_wf b -> spec_flip_h (spec_flip_h b) = b.
Proof.
  intros Hwf. pose proof (wf_shaped b Hwf) as Hs. destruct Hwf as (Hw & Hh & _).
  transitivity (mkBitmap (bm_width b) (bm_height b) (bm_data b));
    [| apply bitmap_eta].
  unfold spec_flip_h. cbn [bm_width bm_height]. f_equal.
  transitivity (raster (bm_width b) (bm_height b) (get_pixel b));
    [| now apply raster_get_pixel].
  apply raster_ext; [lia |]. intros x y Hx Hy.
  rewrite get_pixel_raster.
  split_bounds; [apply get_pixel_eq; lia | exfalso; lia].
Qed.

Lemma spec_flip_v_involutive b : bitmap_wf b -> spec_flip_v (spec_flip_v b) = b.
Proof.
  intros Hwf. pose proof (wf_shaped b Hwf) as Hs. destruct Hwf as (Hw & Hh & _).
  transitivity (mkBitmap (bm_width b) (bm_height b) (bm_data b));
    [| apply bitmap_eta].
  unfold spec_flip_v. cbn [bm_width bm_height]. f_equal.
  transitivity (raster (bm_width b) (bm_height b) (get_pixel b));
    [| now apply raster_get_pixel].
  apply raster_ext; [lia |]. intros x y Hx Hy.
  rewrite get_pixel_raster.
  split_bounds; [apply get_pixel_eq; lia | exfalso; lia].
Qed.

Lemma spec_flip_h_wf b : bitmap_wf b -> bitmap_wf (spec_flip_h b).
Proof.
  intros (Hw & Hh & Hlen & Hok). unfold bitmap_wf. cbn [spec_flip_h bm_width bm_height bm_data].
  repeat split; try assumption.
  - rewrite raster_length. lia.
  - now apply (spec_flip_h_ok b).
Qed.

Lemma spec_flip_v_wf b : bitmap_wf b -> bitmap_wf (spec_flip_v b).
Proof.
  intros (Hw & Hh & Hlen & Hok). unfold bitmap_wf. cbn [spec_flip_v bm_width bm_height bm_data].
  repeat split; try assumption.
  - rewrite raster_length. lia.
  - now apply (spec_flip_v_ok b).
Qed.

(** ** Turning and flipping rearrange the grid *)

Lemma list_map_nth (l : list pixel) d :
  map (fun j => nth j l d) (seq 0 (length l)) = l.
Proof.
  apply (nth_ext _ _ d d).
  - now rewrite length_map, length_seq.
  - intros i Hi. rewrite length_map, length_seq in Hi.
    rewrite (nth_indep _ d (nth 0%nat l d)) by now rewrite length_map, length_seq.
    rewrite (map_nth (fun j => nth j l d)), seq_nth by assumption. reflexivity.
Qed.

Lemma index_cell w h i :
  0 < w -> 0 <= h -> (i < Z.to_nat (w * h))%nat ->
  0 <= Z.of_nat i mod w < w /\ 0 <= Z.of_nat i / w < h /\
  Z.of_nat i = (Z.of_nat i / w) * w + Z.of_nat i mod w.
Proof.
  intros Hw Hh Hi. split; [apply Z.mod_pos_bound; lia |]. split.
  - split; [apply Z.div_pos; lia | apply Z.div_lt_upper_bound; lia].
  - pose proof (Z.div_mod (Z.of_nat i) w). lia.
Qed.

(** Reading a grid through an injective map of cells onto cells of another
    grid of the same area rearranges the pixels. *)
Lemma raster_permutation b w h (tx ty : Z -> Z -> Z) :
  0 < bm_width b -> 0 <= bm_height b -> shaped b ->
  0 < w -> 0 <= h -> w * h = bm_width b * bm_height b ->
  (forall x y, 0 <= x < w -> 0 <= y < h ->
     0 <= tx x y < bm_width b /\ 0 <= ty x y < bm_height b) ->
  (forall x y x' y', 0 <= x < w -> 0 <= y < h -> 0 <= x' < w -> 0 <= y' < h ->
     tx x y = tx x' y' -> ty x y = ty x' y' -> x = x' /\ y = y') ->
  Permutation (bm_data b)
              (raster w h (fun x y => get_pixel b (tx x y) (ty x y))).
Proof.
  intros Hbw Hbh Hs Hw Hh Harea Hin Hinj.
  set (n := Z.to_nat (w * h)).
  set (sigma := fun i : nat =>
     Z.to_nat (ty (Z.of_nat i mod w) (Z.of_nat i / w) * bm_width b
               + tx (Z.of_nat i mod w) (Z.of_nat i / w))).
  assert (Hlen : length (bm_data b) = n) by (unfold shaped in Hs; unfold n; congruence).
  assert (Hraster : raster w h (fun x y => get_pixel b (tx x y) (ty x y))
                    = map (fun j => nth j (bm_data b) transparent) (map sigma (seq 0 n))).
  { unfold raster, zseq. rewrite !map_map. apply map_ext_in.
    intros i Hi. apply in_seq in Hi.
    destruct (index_cell w h i Hw Hh) as (Hx & Hy & _); [lia |].
    destruct (Hin _ _ Hx Hy) as [Htx Hty].
    unfold get_pixel. rewrite (proj2 (in_bounds_true _ _ _ _) (conj Htx Hty)).
    reflexivity. }
  rewrite Hraster. rewrite <- (list_map_nth (bm_data b) transparent) at 1.
  rewrite Hlen. apply Permutation_map. apply Permutation_sym.
  apply NoDup_Permutation_bis.
  - apply NoDup_map_NoDup_ForallPairs; [| apply seq_NoDup].
    intros i i' Hi Hi' Heq. apply in_seq in Hi. apply in_seq in Hi'.
    destruct (index_cell w h i Hw Hh) as (Hx & Hy & Hidx); [lia |].
    destruct (index_cell w h i' Hw Hh) as (Hx' & Hy' & Hidx'); [lia |].
    destruct (Hin _ _ Hx Hy) as [Htx Hty].
    destruct (Hin _ _ Hx' Hy') as [Htx' Hty'].
    unfold sigma in Heq. apply Z2Nat.inj in Heq; [| nia | nia].
    destruct (cell_index (bm_width b) _ (ty (Z.of_nat i mod w) (Z.of_nat i / w)) Htx)
      as [Hm Hd].
    destruct (cell_index (bm_width b) _ (ty (Z.of_nat i' mod w) (Z.of_nat i' / w)) Htx')
      as [Hm' Hd'].
    rewrite Heq in Hm, Hd. rewrite Hm' in Hm. rewrite Hd' in Hd.
    destruct (Hinj _ _ _ _ Hx Hy Hx' Hy' (eq_sym Hm) (eq_sym Hd)) as [Ex Ey].
    rewrite Ex, Ey in Hidx. lia.
  - now rewrite length_map, !length_seq.
  - intros j Hj. apply in_map_iff in Hj. destruct Hj as (i & <- & Hi).
    apply in_seq in Hi. apply in_seq.
    destruct (index_cell w h i Hw Hh) as (Hx & Hy & _); [lia |].
    destruct (Hin _ _ Hx Hy) as [Htx Hty].
    unfold sigma, n. rewrite Harea. nia.
Qed.

Lemma perm_flip_h b : bitmap_wf b -> Permutation (bm_data b) (bm_data (spec_flip_h b)).
Proof.
  intros Hwf. pose proof (wf_shaped b Hwf) as Hs. destruct Hwf as (Hw & Hh & _).
  apply (raster_permutation b (bm_width b) (bm_height b)
           (fun x _ => bm_width b - 1 - x) (fun _ y => y)); first [assumption | lia | (intros; lia)].
Qed.

Lemma perm_flip_v b : bitmap_wf b -> Permutation (bm_data b) (bm_data (spec_flip_v b)).
Proof.
  intros Hwf. pose proof (wf_shaped b Hwf) as Hs. destruct Hwf as (Hw & Hh & _).
  apply (raster_permutation b (bm_width b) (bm_height b)
           (fun x _ => x) (fun _ y => bm_height b - 1 - y)); first [assumption | lia | (intros; lia)].
Qed.

Lemma spec_flips_wf fl b : bitmap_wf b -> bitmap_wf (spec_flips fl b).
Proof.
  intros Hwf. unfold spec_flips.
  destruct (horizontal fl), (vertical fl);
    auto using spec_flip_h_wf, spec_flip_v_wf.
Qed.

Lemma perm_flips fl b : bitmap_wf b -> Permutation (bm_data b) (bm_data (spec_flips fl b)).
Proof.
  intros Hwf. unfold spec_flips.
  destruct (horizontal fl), (vertical fl).
  - eapply Permutation_trans; [apply perm_flip_h, Hwf |].
    apply perm_flip_v, spec_flip_h_wf, Hwf.
  - now apply perm_flip_h.
  - now apply perm_flip_v.
  - apply Permutation_refl.
Qed.

Lemma perm_rotate k b : bitmap_wf b -> Permutation (bm_data b) (bm_data (spec_rotate k b)).
Proof.
  intros Hwf. pose proof (wf_shaped b Hwf) as Hs. destruct Hwf as (Hw & Hh & _).
  unfold spec_rotate.
  destruct (k =? 1); [| destruct (k =? 2); [| destruct (k =? 3)]];
    cbn [bm_data].
  - apply (raster_permutation b (bm_height b) (bm_width b)
             (fun _ y => y) (fun x _ => bm_height b - 1 - x)); first [assumption | lia | (intros; lia)].
  - apply (raster_permutation b (bm_width b) (bm_height b)
             (fun x _ => bm_width b - 1 - x) (fun _ y => bm_height b - 1 - y));
      first [assumption | lia | (intros; lia)].
  - apply (raster_permutation b (bm_height b) (bm_width b)
             (fun _ y => bm_width b - 1 - y) (fun x _ => x)); first [assumption | lia | (intros; lia)].
  - apply Permutation_refl.
Qed.

Lemma flip_then_rotate_size img rot fl :
  quarter_angle rot ->
  (rot = 90 \/ rot = 270 -> bm_width img = bm_height img) ->
  bm_width (flip_then_rotate (quarter_turns rot) fl img) = bm_width img /\
  bm_height (flip_then_rotate (quarter_turns rot) fl img) = bm_height img.
Proof.
  intros Hq Hsq. destruct (spec_flips_size fl img) as [Hfw Hfh].
  unfold quarter_angle in Hq. cbn [In] in Hq. unfold flip_then_rotate.
  destruct Hq as [<- | [<- | [<- | [<- | []]]]].
  - change (quarter_turns 0) with 0. cbn. auto.
  - change (quarter_turns 90) with 1. cbn. rewrite Hfw, Hfh.
    rewrite (Hsq (or_introl eq_refl)). auto.
  - change (quarter_turns 180) with 2. cbn. auto.
  - change (quarter_turns 270) with 3. cbn. rewrite Hfw, Hfh.
    rewrite (Hsq (or_intror eq_refl)). auto.
Qed.

(** ** What the canvas keeps exactly *)

Lemma kept_transparent : kept_exactly transparent.
Proof.
  split; [| now right].
  unfold pixel_ok, channel_ok, transparent; cbn; lia.
Qed.

Lemma premultiply_kept p : kept_exactly p -> premultiply p = p.
Proof.
  intros [(Hr & Hg & Hb & Ha) [H255 | ->]]; [| reflexivity].
  destruct p as [r g b a]. cbn [red green blue alpha] in *. subst a.
  unfold premultiply. cbn [red green blue alpha].
  now rewrite !round_div_exact by lia.
Qed.

Lemma unpremultiply_kept p : kept_exactly p -> unpremultiply p = p.
Proof.
  intros [(Hr & Hg & Hb & Ha) [H255 | ->]]; [| reflexivity].
  destruct p as [r g b a]. cbn [red green blue alpha] in *. subst a.
  unfold unpremultiply. cbn [red green blue alpha Z.eqb].
  now rewrite !round_div_exact, !clamp255_id by (assumption || lia).
Qed.

Lemma map_kept (f : pixel -> pixel) l :
  (forall p, kept_exactly p -> f p = p) -> Forall kept_exactly l -> map f l = l.
Proof.
  intros Hf Hl. induction Hl as [| p l Hp _ IH]; cbn; [reflexivity |].
  now rewrite (Hf p Hp), IH.
Qed.

Lemma kept_ok l : Forall kept_exactly l -> Forall pixel_ok l.
Proof. apply Forall_impl. now intros p [Hok _]. Qed.

Lemma opaque_kept b : bitmap_wf b -> opaque b -> Forall kept_exactly (bm_data b).
Proof.
  intros (_ & _ & _ & Hok) Hop. unfold opaque in Hop.
  rewrite Forall_forall in *. intros p Hp. split; [now apply Hok | left; now apply Hop].
Qed.

Lemma get_pixel_kept b x y :
  Forall kept_exactly (bm_data b) -> kept_exactly (get_pixel b x y).
Proof.
  intros Hk. unfold get_pixel.
  destruct (in_bounds _ _ x y); [| exact kept_transparent].
  destruct (nth_in_or_default (Z.to_nat (y * bm_width b + x)) (bm_data b) transparent)
    as [Hin | ->]; [| exact kept_transparent].
  rewrite Forall_forall in Hk. now apply Hk.
Qed.

Lemma raster_kept w h f :
  (forall x y, kept_exactly (f x y)) -> Forall kept_exactly (raster w h f).
Proof.
  intros Hf. unfold raster. apply Forall_forall. intros p Hp.
  apply in_map_iff in Hp. destruct Hp as (i & <- & _). apply Hf.
Qed.

Lemma spec_flips_kept fl b :
  Forall kept_exactly (bm_data b) -> Forall kept_exactly (bm_data (spec_flips fl b)).
Proof.
  intros Hk. unfold spec_flips.
  assert (Hh : Forall kept_exactly (bm_data (spec_flip_h b)))
    by (apply raster_kept; intros; now apply get_pixel_kept).
  destruct (horizontal fl), (vertical fl); try assumption;
    apply raster_kept; intros; now apply get_pixel_kept.
Qed.

Lemma spec_rotate_kept k b :
  Forall kept_exactly (bm_data b) -> Forall kept_exactly (bm_data (spec_rotate k b)).
Proof.
  intros Hk. unfold spec_rotate.
  destruct (k =? 1); [| destruct (k =? 2); [| destruct (k =? 3)]];
    try assumption;
    apply raster_kept; intros x y; now apply get_pixel_kept.
Qed.

Lemma window_kept w h b :
  Forall kept_exactly (bm_data b) -> Forall kept_exactly (centred_window w h b).
Proof. intros Hk. apply raster_kept. intros x y. now apply get_pixel_kept. Qed.

(** Flips keep an image without transparency so. *)
Lemma spec_flips_opaque fl b : bitmap_wf b -> opaque b -> opaque (spec_flips fl b).
Proof.
  intros Hwf Hop. unfold opaque in *.
  exact (Permutation_Forall (perm_flips fl b Hwf) Hop).
Qed.

(** Reading back a canvas whose pixels are all kept exactly. *)
Lemma toDataURL_kept w h data ctx :
  Forall kept_exactly data ->
  toDataURL (mkCanvas w h (Some data) ctx) = Some (mkBitmap w h data).
Proof.
  intros Hk. unfold toDataURL. cbn [cv_width cv_height cv_data option_map].
  now rewrite (map_kept unpremultiply data unpremultiply_kept Hk).
Qed.

(** ** The geometry of the drawing at the initial adjustments *)

Lemma quarter_angle_cos_sin rot :
  quarter_angle rot -> exists c s, cos_sin rot = Some (c, s) /\
    (s <> 0 -> rot = 90 \/ rot = 270).
Proof.
  unfold quarter_angle. cbn [In].
  intros [<- | [<- | [<- | [<- | []]]]].
  - exists 1, 0. split; [reflexivity | lia].
  - exists 0, 1. split; [reflexivity | auto].
  - exists (-1), 0. split; [reflexivity | lia].
  - exists 0, (-1). split; [reflexivity | auto].
Qed.

Lemma even_mod2 e : Z.even e = true -> e mod 2 = 0.
Proof. rewrite Zmod_even. now intros ->. Qed.

(** The canvas at the initial adjustments, as it is stored. *)
Lemma applyFilters_geometry img rot fl cv :
  bitmap_wf img ->
  quarter_angle rot ->
  (rot = 90 \/ rot = 270 -> Z.even (bm_width img + bm_height img) = true) ->
  applyFilters (mkAppState (Some img) default_adjustments rot fl) (Some cv) =
  Normal (Some (mkCanvas (bm_width img) (bm_height img)
    (Some (map premultiply
             (centred_window (bm_width img) (bm_height img)
                (flip_then_rotate (quarter_turns rot) fl img))))
    (mkContext (mkDrawState neutral_filter (Some identity_matrix)) []))).
Proof.
  intros Hwf Hrot Hpar.
  rewrite (applyFilters_draws (mkAppState (Some img) default_adjustments rot fl) img cv eq_refl).
  unfold pipeline.
  cbn [adjustments rotation flip].
  change (installed_filter default_adjustments) with neutral_filter.
  destruct (quarter_angle_cos_sin rot Hrot) as (c & s & Hcs & Hs).
  destruct Hwf as (Hw & Hh & Hlen & Hok).
  rewrite (transformed_quarter img rot fl c s Hw Hh Hcs)
    by (intros Hne; apply even_mod2, Hpar, Hs, Hne).
  cbn [option_map]. rewrite apply_filters_neutral; [reflexivity |].
  cbn [bm_data]. apply raster_ok. intros x y. apply get_pixel_ok.
  apply spec_rotate_ok, spec_flips_ok, Hok.
Qed.

(** The same for an image without transparency: the stored pixels are the
    drawn ones, and so are the pixels read back. *)
Lemma applyFilters_geometry_opaque img rot fl cv :
  bitmap_wf img -> opaque img ->
  quarter_angle rot ->
  (rot = 90 \/ rot = 270 -> Z.even (bm_width img + bm_height img) = true) ->
  exists c,
    applyFilters (mkAppState (Some img) default_adjustments rot fl) (Some cv)
      = Normal (Some c) /\
    cv_data c = Some (centred_window (bm_width img) (bm_height img)
                        (flip_then_rotate (quarter_turns rot) fl img)) /\
    toDataURL c = Some (mkBitmap (bm_width img) (bm_height img)
                          (centred_window (bm_width img) (bm_height img)
                             (flip_then_rotate (quarter_turns rot) fl img))).
Proof.
  intros Hwf Hop Hrot Hpar.
  assert (Hk : Forall kept_exactly
                 (centred_window (bm_width img) (bm_height img)
                    (flip_then_rotate (quarter_turns rot) fl img))).
  { apply window_kept. unfold flip_then_rotate.
    now apply spec_rotate_kept, spec_flips_kept, opaque_kept. }
  eexists. split; [now apply applyFilters_geometry |].
  cbn [cv_data]. rewrite (map_kept premultiply _ premultiply_kept Hk).
  split; [reflexivity |]. now apply toDataURL_kept.
Qed.
(** ** Sample inputs are well formed *)

Lemma wide_image_wf : bitmap_wf wide_image.
Proof.
  unfold bitmap_wf, wide_image; cbn. repeat split; try lia.
  repeat constructor; cbn; lia.
Qed.

Lemma square_image_wf : bitmap_wf square_image.
Proof.
  unfold bitmap_wf, square_image; cbn. repeat split; try lia.
  repeat constructor; cbn; lia.
Qed.

(** ** Size of the output *)

(** C1 (as the code has it): for every W x H source and every rotation,
    0, 90, 180 and 270 degrees included, the canvas that [applyFilters]
    draws is W x H; a quarter turn does not swap width and height. *)
Theorem canvas_keeps_source_size st img cv :
  image st = Some img ->
  exists c, applyFilters st (Some cv) = Normal (Some c) /\
            cv_width c = bm_width img /\ cv_height c = bm_height img.
Proof.
  intros Himg. eexists. split; [apply applyFilters_draws, Himg |].
  split; reflexivity.
Qed.

Lemma canvas_keeps_source_size_witness :
  image (mkAppState (Some wide_image) default_adjustments 90 no_flip) = Some wide_image /\
  exists c,
    applyFilters (mkAppState (Some wide_image) default_adjustments 90 no_flip)
                 (Some empty_canvas) = Normal (Some c) /\
    cv_width c = 2 /\ cv_height c = 1.
Proof.
  split; [reflexivity |].
  exact (canvas_keeps_source_size
           (mkAppState (Some wide_image) default_adjustments 90 no_flip)
           wide_image empty_canvas eq_refl).
Defined.

(** C1 (as the specification states it) fails: a 2 x 1 image turned by 90
    degrees is drawn on a 2 x 1 canvas, not on a 1 x 2 one. *)
Lemma dimension_swap_law_fails : ~ dimension_swap_law.
Proof.
  intros Hlaw.
  pose (st := mkAppState (Some wide_image) default_adjustments 90 no_flip).
  specialize (Hlaw st wide_image empty_canvas
                   (pipeline wide_image default_adjustments 90 no_flip)
                   wide_image_wf eq_refl).
  assert (Hq : quarter_angle (rotation st)) by (cbn; auto).
  specialize (Hlaw Hq (applyFilters_draws st wide_image empty_canvas eq_refl)).
  cbn in Hlaw. discriminate Hlaw.
Qed.

(** ** Order of rotation and flips *)

Lemma flip_then_rotate_square img k fl :
  bitmap_wf img -> bm_width img = bm_height img ->
  mkBitmap (bm_width img) (bm_height img)
    (centred_window (bm_width img) (bm_height img) (flip_then_rotate k fl img))
  = flip_then_rotate k fl img.
Proof.
  intros Hwf Hsq. pose proof (wf_shaped img Hwf) as Hs.
  destruct Hwf as (Hw & _).
  set (b := flip_then_rotate k fl img).
  destruct (spec_flips_size fl img) as [Hfw Hfh].
  destruct (spec_rotate_square_size k (spec_flips fl img)) as [Hrw Hrh];
    [congruence |].
  assert (Hbw : bm_width b = bm_width img) by (unfold b, flip_then_rotate; congruence).
  assert (Hbh : bm_height b = bm_height img) by (unfold b, flip_then_rotate; congruence).
  rewrite <- Hbw, <- Hbh. rewrite centred_window_full.
  - apply bitmap_eta.
  - lia.
  - unfold b, flip_then_rotate. now apply spec_rotate_shaped, spec_flips_shaped.
Qed.

(** Flipping and then rotating is rotating and then flipping with the flags
    as they read on the rotated picture. *)
Lemma flip_then_rotate_exchange img rot fl :
  bitmap_wf img -> quarter_angle rot ->
  flip_then_rotate (quarter_turns rot) fl img =
  rotate_then_flip (quarter_turns rot) (flags_after_rotation rot fl) img.
Proof.
  intros (Hw & Hh & _) Hq. unfold quarter_angle in Hq. cbn [In] in Hq.
  unfold flags_after_rotation.
  destruct Hq as [<- | [<- | [<- | [<- | []]]]];
    match goal with
    | |- context [quarter_turns ?n] =>
        let k := eval vm_compute in (quarter_turns n) in
        change (quarter_turns n) with k
    end;
    cbn [Z.eqb Pos.eqb orb]; destruct fl as [[] []];
    cbv [flip_then_rotate rotate_then_flip spec_rotate spec_flips spec_flip_h
         spec_flip_v horizontal vertical];
    cbv iota beta; cbn [bm_width bm_height Z.eqb Pos.eqb];
    try reflexivity;
    (f_equal; apply raster_ext; [lia |]; intros x y Hx Hy;
     repeat (cbn [bm_width bm_height]; rewrite ?get_pixel_raster);
     split_bounds; same_pixel).
Qed.

(** C2 (as the code has it): for every source bitmap without transparency,
    every rotation by a multiple of 90 degrees (for 90 and 270 degrees with
    W + H even, so that the pixel grids line up) and every pair of flip
    flags, the canvas gives back the source flipped first, in its own frame,
    and then rotated (flip-then-rotate), through the W x H window centred on
    the result; on a square image the output is exactly flip-then-rotate.
    Flip-then-rotate is rotate-then-flip with the two flags exchanged at 90
    and 270 degrees, and with the flags as they are at 0 and 180 degrees. *)
Theorem flips_act_before_rotation img rot fl cv :
  bitmap_wf img ->
  opaque img ->
  quarter_angle rot ->
  (rot = 90 \/ rot = 270 -> Z.even (bm_width img + bm_height img) = true) ->
  exists c,
    applyFilters (mkAppState (Some img) default_adjustments rot fl) (Some cv)
      = Normal (Some c) /\
    toDataURL c = Some (mkBitmap (bm_width img) (bm_height img)
                          (centred_window (bm_width img) (bm_height img)
                             (flip_then_rotate (quarter_turns rot) fl img))) /\
    (bm_width img = bm_height img ->
     toDataURL c = Some (flip_then_rotate (quarter_turns rot) fl img)) /\
    flip_then_rotate (quarter_turns rot) fl img =
      rotate_then_flip (quarter_turns rot) (flags_after_rotation rot fl) img.
Proof.
  intros Hwf Hop Hrot Hpar.
  destruct (applyFilters_geometry_opaque img rot fl cv Hwf Hop Hrot Hpar)
    as (c & Hc & _ & Hback).
  exists c. split; [exact Hc |]. split; [exact Hback |]. split.
  - intros Hsq. rewrite Hback. f_equal. now apply flip_then_rotate_square.
  - now apply flip_then_rotate_exchange.
Qed.

Lemma square_image_opaque : opaque square_image.
Proof. unfold opaque, square_image; cbn. repeat constructor. Qed.

Lemma flips_act_before_rotation_witness :
  bitmap_wf square_image /\ opaque square_image /\ quarter_angle 90 /\
  (90 = 90 \/ 90 = 270 ->
   Z.even (bm_width square_image + bm_height square_image) = true) /\
  exists c,
    applyFilters (mkAppState (Some square_image) default_adjustments 90 (mkFlip true false))
                 (Some empty_canvas) = Normal (Some c) /\
    toDataURL c = Some (mkBitmap 2 2
                          (centred_window 2 2
                             (flip_then_rotate (quarter_turns 90) (mkFlip true false)
                                               square_image))) /\
    (bm_width square_image = bm_height square_image ->
     toDataURL c = Some (flip_then_rotate (quarter_turns 90) (mkFlip true false) square_image)) /\
    flip_then_rotate (quarter_turns 90) (mkFlip true false) square_image =
      rotate_then_flip (quarter_turns 90) (flags_after_rotation 90 (mkFlip true false))
                       square_image.
Proof.
  assert (Hq : quarter_angle 90) by (unfold quarter_angle; cbn; auto).
  assert (Hp : 90 = 90 \/ 90 = 270 ->
               Z.even (bm_width square_image + bm_height square_image) = true)
    by (intros _; reflexivity).
  split; [exact square_image_wf |]. split; [exact square_image_opaque |].
  split; [exact Hq |]. split; [exact Hp |].
  exact (flips_act_before_rotation square_image 90 (mkFlip true false)
           empty_canvas square_image_wf square_image_opaque Hq Hp).
Defined.

(** C2 (as the specification states it) fails: with a rotation of 90
    degrees and the horizontal flip, the 2 x 2 image [10 20; 30 40] is drawn
    as [40 20; 30 10], which is flip-then-rotate, while rotate-then-flip is
    [10 30; 20 40]. *)
Lemma rotate_then_flip_law_fails : ~ rotate_then_flip_law.
Proof.
  intros Hlaw.
  assert (H90 : In 90 [0; 90; 270]) by (cbn; auto).
  specialize (Hlaw square_image 90 (mkFlip true false) empty_canvas
                   (pipeline square_image default_adjustments 90 (mkFlip true false))
                   square_image_wf H90 eq_refl
                   (applyFilters_draws
                      (mkAppState (Some square_image) default_adjustments 90 (mkFlip true false))
                      square_image empty_canvas eq_refl)).
  vm_compute in Hlaw. discriminate Hlaw.
Qed.
(** ** No range check *)

(** C3 (as the code has it): for every input, those with brightness,
    contrast or saturation outside [0,200] or blur outside [0,20] included,
    [applyFilters] completes without an error: it validates nothing and
    hands the four values, unclamped, to the filter of the canvas (which
    drops the whole list when one of them is negative). *)
Theorem no_range_check :
  (forall st cv, exists out, applyFilters st cv = Normal out) /\
  (forall img a rot fl cv, exists c,
     applyFilters (mkAppState (Some img) a rot fl) (Some cv) = Normal (Some c) /\
     ds_filter (ctx_state (cv_ctx c)) =
       if (0 <=? brightness a) && (0 <=? contrast a) &&
          (0 <=? saturation a) && (0 <=? blur a)
       then [Brightness (brightness a); Contrast (contrast a);
             Saturate (saturation a); Blur (blur a)]
       else []).
Proof.
  split.
  - intros st [cv |]; [| now exists None].
    destruct (image st) as [img |] eqn:Himg.
    + eexists. apply applyFilters_draws. exact Himg.
    + exists (Some cv). unfold applyFilters. now rewrite Himg.
  - intros img a rot fl cv. eexists. split.
    + apply (applyFilters_draws (mkAppState (Some img) a rot fl) img cv). reflexivity.
    + cbn. unfold installed_filter. cbn [forallb filter_fn_valid].
      rewrite andb_true_r, !andb_assoc. reflexivity.
Qed.

(** C3 (as the specification states it) fails: with brightness 300 the
    call returns normally, having drawn with [brightness(300%)]. *)
Lemma range_check_law_fails : ~ range_check_law.
Proof.
  intros Hlaw.
  destruct (Hlaw (mkAppState (Some wide_image) (mkAdjustments 300 100 100 0) 0 no_flip)
                 wide_image empty_canvas) as [error Herr].
  - reflexivity.
  - unfold in_range; cbn. lia.
  - rewrite (applyFilters_draws
               (mkAppState (Some wide_image) (mkAdjustments 300 100 100 0) 0 no_flip)
               wide_image empty_canvas eq_refl) in Herr.
    discriminate Herr.
Qed.

(** ** Order of the filters *)

(** C4: for every source bitmap and every adjustment parameters (each in
    its range), the canvas holds the placed image with brightness applied
    first, then contrast, then saturation, then blur (stored, as every
    canvas bitmap, premultiplied). *)
Theorem filters_in_fixed_order st img cv :
  image st = Some img ->
  in_range (adjustments st) ->
  exists c,
    applyFilters st (Some cv) = Normal (Some c) /\
    ds_filter (ctx_state (cv_ctx c)) =
      [Brightness (brightness (adjustments st)); Contrast (contrast (adjustments st));
       Saturate (saturation (adjustments st)); Blur (blur (adjustments st))] /\
    cv_data c =
      option_map
        (fun placed =>
           map premultiply (bm_data
             (blur_bitmap (blur (adjustments st))
                (map_pixels (saturate_pixel (saturation (adjustments st)))
                   (map_pixels (contrast_pixel (contrast (adjustments st)))
                      (map_pixels (brightness_pixel (brightness (adjustments st)))
                         placed))))))
        (transformed img (rotation st) (flip st)).
Proof.
  intros Himg (Hb & Hc & Hs & Hr). eexists. split.
  - apply applyFilters_draws, Himg.
  - assert (Hf : installed_filter (adjustments st) =
                 [Brightness (brightness (adjustments st));
                  Contrast (contrast (adjustments st));
                  Saturate (saturation (adjustments st));
                  Blur (blur (adjustments st))]).
    { unfold installed_filter. cbn [forallb filter_fn_valid].
      now rewrite !(proj2 (Z.leb_le 0 _)) by lia. }
    unfold pipeline. cbn [cv_ctx cv_data ctx_state ds_filter]. rewrite Hf.
    split; reflexivity.
Qed.

Lemma filters_in_fixed_order_witness :
  image (mkAppState (Some square_image) (mkAdjustments 150 80 120 2) 0 no_flip)
    = Some square_image /\
  in_range (mkAdjustments 150 80 120 2) /\
  exists c,
    applyFilters (mkAppState (Some square_image) (mkAdjustments 150 80 120 2) 0 no_flip)
                 (Some empty_canvas) = Normal (Some c) /\
    ds_filter (ctx_state (cv_ctx c)) =
      [Brightness 150; Contrast 80; Saturate 120; Blur 2] /\
    cv_data c =
      option_map
        (fun placed =>
           map premultiply (bm_data
             (blur_bitmap 2
                (map_pixels (saturate_pixel 120)
                   (map_pixels (contrast_pixel 80)
                      (map_pixels (brightness_pixel 150) placed))))))
        (transformed square_image 0 no_flip).
Proof.
  assert (Hr : in_range (mkAdjustments 150 80 120 2)) by (unfold in_range; cbn; lia).
  split; [reflexivity |]. split; [exact Hr |].
  exact (filters_in_fixed_order
           (mkAppState (Some square_image) (mkAdjustments 150 80 120 2) 0 no_flip)
           square_image empty_canvas eq_refl Hr).
Defined.

(** ** Identity and involutions *)

Lemma applyFilters_flips img fl cv :
  bitmap_wf img -> opaque img ->
  exists c,
    applyFilters (mkAppState (Some img) default_adjustments 0 fl) (Some cv)
      = Normal (Some c) /\
    toDataURL c = Some (spec_flips fl img).
Proof.
  intros Hwf Hop.
  destruct (applyFilters_geometry_opaque img 0 fl cv Hwf Hop) as (c & Hc & _ & Hback);
    [unfold quarter_angle; cbn; auto | intros [H | H]; discriminate H |].
  exists c. split; [exact Hc |]. rewrite Hback.
  change (quarter_turns 0) with 0. unfold flip_then_rotate.
  change (spec_rotate 0 (spec_flips fl img)) with (spec_flips fl img).
  destruct (spec_flips_size fl img) as [Hfw Hfh].
  rewrite <- Hfw at 1 2. rewrite <- Hfh at 1 2.
  rewrite centred_window_full; [f_equal; apply bitmap_eta | |].
  - destruct Hwf as (Hw & _). lia.
  - now apply spec_flips_shaped, wf_shaped.
Qed.

Lemma faint_image_wf : bitmap_wf faint_image.
Proof.
  unfold bitmap_wf, faint_image; cbn. repeat split; try lia.
  repeat constructor; cbn; lia.
Qed.

Lemma veiled_image_wf : bitmap_wf veiled_image.
Proof.
  unfold bitmap_wf, veiled_image; cbn. repeat split; try lia.
  repeat constructor; cbn; lia.
Qed.

(** C5 (as the code has it): for every source bitmap without transparency
    (alpha 255 in every pixel), the pipeline at brightness 100, contrast 100,
    saturation 100, blur 0, rotation 0 and no flip yields an output identical
    to the source. *)
Theorem identity_at_defaults img cv :
  bitmap_wf img ->
  opaque img ->
  exists c,
    applyFilters (mkAppState (Some img) (mkAdjustments 100 100 100 0) 0 (mkFlip false false))
                 (Some cv) = Normal (Some c) /\
    toDataURL c = Some img.
Proof.
  intros Hwf Hop. exact (applyFilters_flips img no_flip cv Hwf Hop).
Qed.

Lemma identity_at_defaults_witness :
  bitmap_wf square_image /\ opaque square_image /\
  exists c,
    applyFilters (mkAppState (Some square_image) (mkAdjustments 100 100 100 0) 0
                             (mkFlip false false))
                 (Some empty_canvas) = Normal (Some c) /\
    toDataURL c = Some square_image.
Proof.
  split; [exact square_image_wf |]. split; [exact square_image_opaque |].
  exact (identity_at_defaults square_image empty_canvas square_image_wf
           square_image_opaque).
Defined.

(** C5 (as the specification states it) fails: the canvas stores colours
    premultiplied by alpha in 8 bits, and the one-pixel image (100, 50, 25)
    of alpha 2 comes back as (128, 0, 0) of alpha 2. *)
Lemma identity_law_fails : ~ identity_law.
Proof.
  intros Hlaw.
  specialize (Hlaw faint_image empty_canvas
                   (pipeline faint_image default_adjustments 0 no_flip)
                   faint_image_wf
                   (applyFilters_draws
                      (mkAppState (Some faint_image) default_adjustments 0 no_flip)
                      faint_image empty_canvas eq_refl)).
  vm_compute in Hlaw. discriminate Hlaw.
Qed.

(** C6 (as the code has it): each flip is an involution on the flags:
    pressing the same flip button twice restores the flags, and so the canvas
    that is drawn, for every bitmap.  Drawing a bitmap with one flip and
    drawing what the canvas gives back with the same flip returns the
    original bitmap exactly for every bitmap without transparency. *)
Theorem flips_are_involutions img cv cv' :
  bitmap_wf img ->
  opaque img ->
  (forall f, flip_horizontal (flip_horizontal f) = f) /\
  (forall f, flip_vertical (flip_vertical f) = f) /\
  (forall src a rot f previous,
     applyFilters (mkAppState (Some src) a rot (flip_horizontal (flip_horizontal f)))
                  (Some previous)
     = applyFilters (mkAppState (Some src) a rot f) (Some previous) /\
     applyFilters (mkAppState (Some src) a rot (flip_vertical (flip_vertical f)))
                  (Some previous)
     = applyFilters (mkAppState (Some src) a rot f) (Some previous)) /\
  (exists c1 once c2,
     applyFilters (mkAppState (Some img) default_adjustments 0 (flip_horizontal no_flip))
                  (Some cv) = Normal (Some c1) /\
     toDataURL c1 = Some once /\
     applyFilters (mkAppState (Some once) default_adjustments 0 (flip_horizontal no_flip))
                  (Some cv') = Normal (Some c2) /\
     toDataURL c2 = Some img) /\
  (exists c1 once c2,
     applyFilters (mkAppState (Some img) default_adjustments 0 (flip_vertical no_flip))
                  (Some cv) = Normal (Some c1) /\
     toDataURL c1 = Some once /\
     applyFilters (mkAppState (Some once) default_adjustments 0 (flip_vertical no_flip))
                  (Some cv') = Normal (Some c2) /\
     toDataURL c2 = Some img).
Proof.
  intros Hwf Hop.
  assert (Hh : forall f, flip_horizontal (flip_horizontal f) = f)
    by (intros [h v]; unfold flip_horizontal; cbn; now rewrite negb_involutive).
  assert (Hv : forall f, flip_vertical (flip_vertical f) = f)
    by (intros [h v]; unfold flip_vertical; cbn; now rewrite negb_involutive).
  split; [exact Hh |]. split; [exact Hv |]. split; [| split].
  - intros src a rot f previous. now rewrite Hh, Hv.
  - destruct (applyFilters_flips img (flip_horizontal no_flip) cv Hwf Hop)
      as (c1 & Hc1 & Hb1).
    destruct (applyFilters_flips (spec_flip_h img) (flip_horizontal no_flip) cv'
                (spec_flip_h_wf img Hwf)
                (spec_flips_opaque (flip_horizontal no_flip) img Hwf Hop))
      as (c2 & Hc2 & Hb2).
    exists c1, (spec_flip_h img), c2.
    split; [exact Hc1 |]. split; [exact Hb1 |]. split; [exact Hc2 |].
    rewrite Hb2. f_equal. now apply spec_flip_h_involutive.
  - destruct (applyFilters_flips img (flip_vertical no_flip) cv Hwf Hop)
      as (c1 & Hc1 & Hb1).
    destruct (applyFilters_flips (spec_flip_v img) (flip_vertical no_flip) cv'
                (spec_flip_v_wf img Hwf)
                (spec_flips_opaque (flip_vertical no_flip) img Hwf Hop))
      as (c2 & Hc2 & Hb2).
    exists c1, (spec_flip_v img), c2.
    split; [exact Hc1 |]. split; [exact Hb1 |]. split; [exact Hc2 |].
    rewrite Hb2. f_equal. now apply spec_flip_v_involutive.
Qed.

Lemma flips_are_involutions_witness :
  bitmap_wf square_image /\ opaque square_image /\
  (forall f, flip_horizontal (flip_horizontal f) = f) /\
  (forall f, flip_vertical (flip_vertical f) = f) /\
  (forall src a rot f previous,
     applyFilters (mkAppState (Some src) a rot (flip_horizontal (flip_horizontal f)))
                  (Some previous)
     = applyFilters (mkAppState (Some src) a rot f) (Some previous) /\
     applyFilters (mkAppState (Some src) a rot (flip_vertical (flip_vertical f)))
                  (Some previous)
     = applyFilters (mkAppState (Some src) a rot f) (Some previous)) /\
  (exists c1 once c2,
     applyFilters (mkAppState (Some square_image) default_adjustments 0
                              (flip_horizontal no_flip))
                  (Some empty_canvas) = Normal (Some c1) /\
     toDataURL c1 = Some once /\
     applyFilters (mkAppState (Some once) default_adjustments 0 (flip_horizontal no_flip))
                  (Some default_canvas) = Normal (Some c2) /\
     toDataURL c2 = Some square_image) /\
  (exists c1 once c2,
     applyFilters (mkAppState (Some square_image) default_adjustments 0
                              (flip_vertical no_flip))
                  (Some empty_canvas) = Normal (Some c1) /\
     toDataURL c1 = Some once /\
     applyFilters (mkAppState (Some once) default_adjustments 0 (flip_vertical no_flip))
                  (Some default_canvas) = Normal (Some c2) /\
     toDataURL c2 = Some square_image).
Proof.
  split; [exact square_image_wf |]. split; [exact square_image_opaque |].
  exact (flips_are_involutions square_image empty_canvas default_canvas
           square_image_wf square_image_opaque).
Defined.

(** C6 (as the specification states it) fails: the one-pixel image
    (200, 100, 50) of alpha 128 comes back from the canvas as
    (199, 100, 50), and from a second draw as (199, 100, 50) again, not as
    the original. *)
Lemma flip_twice_law_fails : ~ flip_twice_law.
Proof.
  intros Hlaw.
  pose (once := mkBitmap 1 1 [mkPixel 199 100 50 128]).
  specialize (Hlaw veiled_image (flip_horizontal no_flip) empty_canvas empty_canvas
                   (pipeline veiled_image default_adjustments 0 (flip_horizontal no_flip))
                   once
                   (pipeline once default_adjustments 0 (flip_horizontal no_flip))
                   veiled_image_wf (or_introl eq_refl)
                   (applyFilters_draws
                      (mkAppState (Some veiled_image) default_adjustments 0
                                  (flip_horizontal no_flip))
                      veiled_image empty_canvas eq_refl)
                   eq_refl
                   (applyFilters_draws
                      (mkAppState (Some once) default_adjustments 0
                                  (flip_horizontal no_flip))
                      once empty_canvas eq_refl)).
  vm_compute in Hlaw. discriminate Hlaw.
Qed.
(** ** The component over a sequence of events *)

Lemma run_invariant (P : World -> Prop) :
  (forall w ev, P w -> P (step w ev)) ->
  forall evs w, P w -> P (run evs w).
Proof.
  intros Hstep evs. unfold run.
  induction evs as [| ev evs IH]; intros w Hw; cbn; [assumption |].
  apply IH, Hstep, Hw.
Qed.

Lemma rotate_step_quarter r : quarter_angle r -> quarter_angle (rotate_step r).
Proof.
  unfold quarter_angle, rotate_step. cbn [In].
  intros [<- | [<- | [<- | [<- | []]]]]; cbn; auto.
Qed.

Lemma rotate_step_wraps r :
  quarter_angle r -> rotate_step r = (r + 90) mod 360.
Proof.
  unfold quarter_angle, rotate_step. cbn [In].
  intros [<- | [<- | [<- | [<- | []]]]]; reflexivity.
Qed.

Lemma handle_quarter ev st :
  quarter_angle (rotation st) -> quarter_angle (rotation (handle ev st)).
Proof.
  intros Hq. destruct ev; cbn [handle rotation]; auto using rotate_step_quarter.
Qed.

(** C7: after any sequence of user actions starting from the initial
    state, the rotation is one of 0, 90, 180, 270, and one more rotate
    action advances it by 90 modulo 360. *)
Theorem rotation_is_a_quarter_angle evs :
  let st := app (run evs initial_world) in
  In (rotation st) [0; 90; 180; 270] /\
  rotation (handle Rotate st) = (rotation st + 90) mod 360 /\
  In (rotation (handle Rotate st)) [0; 90; 180; 270].
Proof.
  assert (Hq : quarter_angle (rotation (app (run evs initial_world)))).
  { apply (run_invariant (fun w => quarter_angle (rotation (app w)))).
    - intros w ev Hw. cbn. now apply handle_quarter.
    - unfold quarter_angle; cbn; auto. }
  cbv zeta. split; [exact Hq |]. split.
  - cbn. now apply rotate_step_wraps.
  - now apply (handle_quarter Rotate).
Qed.

Lemma handle_keeps_image ev st :
  image (handle ev st) = None -> image st = None.
Proof. destruct ev; cbn; auto; discriminate. Qed.

Lemma step_redraws w ev :
  (canvasRef w = None \/ image (app w) <> None) ->
  canvasRef (step w ev) =
  match image (app (step w ev)) with
  | Some img =>
      Some (pipeline img (adjustments (app (step w ev)))
                     (rotation (app (step w ev))) (flip (app (step w ev))))
  | None => None
  end.
Proof.
  intros Hw. unfold step. cbn [app canvasRef].
  set (st := handle ev (app w)).
  destruct (image st) as [img |] eqn:Himg.
  - unfold run_effect, mount. rewrite Himg.
    destruct (canvasRef w) as [cv |];
      now rewrite (applyFilters_draws st img _ Himg).
  - apply handle_keeps_image in Himg as Hnone.
    destruct Hw as [Href | Himg']; [| contradiction].
    unfold run_effect, mount. rewrite Himg, Href. reflexivity.
Qed.

(** C8: the canvas is redrawn from the source on every change.  Whatever
    the canvas held before, [applyFilters] leaves the canvas that is a
    function of the source image and the current parameters alone; and after
    every sequence of events the canvas on the page is that function of the
    uploaded image and the current adjustments, rotation and flips, so that
    no earlier output enters a later one.  Only an upload changes the source. *)
Theorem redrawn_from_source :
  (forall img a rot fl previous,
     applyFilters (mkAppState (Some img) a rot fl) (Some previous)
       = Normal (Some (pipeline img a rot fl))) /\
  (forall evs,
     let w := run evs initial_world in
     canvasRef w =
     match image (app w) with
     | Some img => Some (pipeline img (adjustments (app w)) (rotation (app w))
                                  (flip (app w)))
     | None => None
     end) /\
  (forall st name value,
     image (handle (Adjust name value) st) = image st /\
     image (handle Rotate st) = image st /\
     image (handle FlipH st) = image st /\
     image (handle FlipV st) = image st).
Proof.
  split; [| split].
  - intros img a rot fl previous.
    exact (applyFilters_draws (mkAppState (Some img) a rot fl) img previous eq_refl).
  - intros evs. cbv zeta.
    set (P := fun w : World =>
      canvasRef w =
      match image (app w) with
      | Some img => Some (pipeline img (adjustments (app w)) (rotation (app w))
                                   (flip (app w)))
      | None => None
      end).
    apply (run_invariant P).
    + intros w ev Hw. apply step_redraws. unfold P in Hw.
      destruct (image (app w)); [right; discriminate | left; exact Hw].
    + reflexivity.
  - intros st name value. repeat split.
Qed.

(** ** Brightness at the top of its range *)

Lemma white_is_kept a :
  0 < a <= 255 ->
  unpremultiply (premultiply (mkPixel 255 255 255 a)) = mkPixel 255 255 255 a.
Proof.
  intros Ha. unfold premultiply. cbn [red green blue alpha].
  rewrite (Z.mul_comm 255 a), round_div_exact by lia.
  unfold unpremultiply. cbn [red green blue alpha].
  destruct (Z.eqb_spec a 0) as [H0 | _]; [lia |].
  rewrite (Z.mul_comm a 255), round_div_exact by lia. reflexivity.
Qed.

(** C9: brightness 200 on a pixel with channels (200, 200, 200) gives
    channels clamped at 255, in the filter itself, for every alpha, and on
    the canvas drawn from a one-pixel image and read back, for every alpha
    from 1 to 255. *)
Theorem brightness_clamps_at_255 :
  (forall a, brightness_pixel 200 (mkPixel 200 200 200 a) = mkPixel 255 255 255 a) /\
  (forall a cv, 0 < a <= 255 ->
     exists c,
       applyFilters (mkAppState (Some (mkBitmap 1 1 [mkPixel 200 200 200 a]))
                                (mkAdjustments 200 100 100 0) 0 no_flip) (Some cv)
         = Normal (Some c) /\
       ds_filter (ctx_state (cv_ctx c))
         = [Brightness 200; Contrast 100; Saturate 100; Blur 0] /\
       toDataURL c = Some (mkBitmap 1 1 [mkPixel 255 255 255 a])).
Proof.
  split; [reflexivity |]. intros a cv Ha. eexists. split; [| split].
  - exact (applyFilters_draws
             (mkAppState (Some (mkBitmap 1 1 [mkPixel 200 200 200 a]))
                         (mkAdjustments 200 100 100 0) 0 no_flip)
             (mkBitmap 1 1 [mkPixel 200 200 200 a]) cv eq_refl).
  - reflexivity.
  - transitivity
      (Some (mkBitmap 1 1 [unpremultiply (premultiply (mkPixel 255 255 255 a))]));
      [reflexivity |].
    now rewrite white_is_kept.
Qed.

Lemma brightness_clamps_at_255_witness :
  0 < 128 <= 255 /\
  exists c,
    applyFilters (mkAppState (Some (mkBitmap 1 1 [mkPixel 200 200 200 128]))
                             (mkAdjustments 200 100 100 0) 0 no_flip) (Some empty_canvas)
      = Normal (Some c) /\
    ds_filter (ctx_state (cv_ctx c))
      = [Brightness 200; Contrast 100; Saturate 100; Blur 0] /\
    toDataURL c = Some (mkBitmap 1 1 [mkPixel 255 255 255 128]).
Proof.
  assert (Ha : 0 < 128 <= 255) by lia.
  split; [exact Ha |].
  exact (proj2 brightness_clamps_at_255 128 empty_canvas Ha).
Defined.
(** ** One slider at a time *)

(** C10: updating one adjustment leaves the other three as they were. *)
Theorem handleAdjustment_frame name value prev other :
  other <> name ->
  adjustment other (handleAdjustment name value prev) = adjustment other prev.
Proof. destruct name, other; intros Hne; try reflexivity; contradiction. Qed.

Lemma handleAdjustment_frame_witness :
  KContrast <> KBrightness /\
  adjustment KContrast (handleAdjustment KBrightness 150 default_adjustments)
    = adjustment KContrast default_adjustments.
Proof.
  assert (Hne : KContrast <> KBrightness) by discriminate.
  split; [exact Hne |].
  exact (handleAdjustment_frame KBrightness 150 default_adjustments KContrast Hne).
Defined.

(** ** Sessions at the page *)

Lemma run_shown evs : canvasRef (run evs initial_world) = shown (app (run evs initial_world)).
Proof.
  apply (run_invariant (fun w => canvasRef w = shown (app w))); [| reflexivity].
  intros w ev Hw. unfold shown in *. apply step_redraws.
  destruct (image (app w)); [right; discriminate | left; exact Hw].
Qed.

Lemma ui_run_is_run evs : forall w w', ui_run evs w = Some w' -> w' = run evs w.
Proof.
  induction evs as [| ev evs IH]; intros w w' Hrun; cbn in Hrun.
  - now injection Hrun as <-.
  - destruct (enabled (app w) ev); [| discriminate]. now apply IH.
Qed.

Lemma ui_run_invariant (P : World -> Prop) :
  (forall w ev, P w -> enabled (app w) ev = true -> P (step w ev)) ->
  forall evs w w', P w -> ui_run evs w = Some w' -> P w'.
Proof.
  intros Hstep evs. induction evs as [| ev evs IH]; intros w w' Hw Hrun; cbn in Hrun.
  - now injection Hrun as <-.
  - destruct (enabled (app w) ev) eqn:Hen; [| discriminate].
    eapply IH; [| exact Hrun]. now apply Hstep.
Qed.

Lemma ui_run_app evs1 : forall evs2 w w',
  ui_run (evs1 ++ evs2) w = Some w' ->
  exists w1, ui_run evs1 w = Some w1 /\ ui_run evs2 w1 = Some w'.
Proof.
  induction evs1 as [| ev evs1 IH]; intros evs2 w w' Hrun; cbn in *.
  - now exists w.
  - destruct (enabled (app w) ev); [| discriminate]. now apply IH.
Qed.

Lemma enabled_with_image st ev img :
  image st = Some img -> enabled st ev = true ->
  is_upload ev = false /\ image (handle ev st) = Some img.
Proof.
  intros Himg Hen. unfold enabled in Hen. rewrite Himg in Hen.
  destruct ev; try discriminate; cbn; auto.
Qed.

Lemma ui_run_keeps_image evs : forall w w' img,
  image (app w) = Some img -> ui_run evs w = Some w' ->
  image (app w') = Some img /\ existsb is_upload evs = false.
Proof.
  induction evs as [| ev evs IH]; intros w w' img Himg Hrun; cbn in Hrun.
  - injection Hrun as <-. now split.
  - destruct (enabled (app w) ev) eqn:Hen; [| discriminate].
    destruct (enabled_with_image _ _ _ Himg Hen) as [Hup Himg'].
    destruct (IH (step w ev) w' img Himg' Hrun) as [H1 H2].
    split; [exact H1 |]. cbn. now rewrite Hup, H2.
Qed.

(** X1: a session at the page is empty, the page still in its initial
    state, or it starts with the one upload: no slider or button can be
    used before there is an image, and afterwards the image cannot be
    replaced, so the source stays the uploaded bitmap. *)
Theorem session_starts_with_the_upload evs w :
  ui_run evs initial_world = Some w ->
  (evs = [] /\ w = initial_world) \/
  (exists img rest,
     evs = Upload img :: rest /\
     existsb is_upload rest = false /\
     image (app w) = Some img).
Proof.
  destruct evs as [| ev rest]; cbn; intros Hrun.
  - left. split; [reflexivity |]. now injection Hrun as <-.
  - right. destruct ev; cbn in Hrun; try discriminate.
    exists img, rest. split; [reflexivity |].
    destruct (ui_run_keeps_image rest (step initial_world (Upload img)) w img
                eq_refl Hrun) as [H1 H2]. now split.
Qed.

Lemma session_starts_with_the_upload_witness :
  ui_run [Upload square_image; Rotate; Adjust KBlur 3] initial_world
    = Some (run [Upload square_image; Rotate; Adjust KBlur 3] initial_world) /\
  (([Upload square_image; Rotate; Adjust KBlur 3] = [] /\
    run [Upload square_image; Rotate; Adjust KBlur 3] initial_world = initial_world) \/
   (exists img rest,
      [Upload square_image; Rotate; Adjust KBlur 3] = Upload img :: rest /\
      existsb is_upload rest = false /\
      image (app (run [Upload square_image; Rotate; Adjust KBlur 3] initial_world))
        = Some img)).
Proof.
  assert (H : ui_run [Upload square_image; Rotate; Adjust KBlur 3] initial_world
              = Some (run [Upload square_image; Rotate; Adjust KBlur 3] initial_world))
    by reflexivity.
  split; [exact H |].
  exact (session_starts_with_the_upload _ _ H).
Defined.

Lemma installed_filter_in_range a :
  in_range a ->
  installed_filter a =
  [Brightness (brightness a); Contrast (contrast a);
   Saturate (saturation a); Blur (blur a)].
Proof.
  intros (Hb & Hc & Hs & Hr). unfold installed_filter. cbn [forallb filter_fn_valid].
  now rewrite !(proj2 (Z.leb_le 0 _)) by lia.
Qed.

Lemma handleAdjustment_in_range name value a :
  in_range a -> slider_min name <= value <= slider_max name ->
  in_range (handleAdjustment name value a).
Proof.
  unfold in_range. intros (Hb & Hc & Hs & Hr) Hv.
  destruct name; cbn in *; repeat split; lia.
Qed.

Lemma step_in_range w ev :
  in_range (adjustments (app w)) -> enabled (app w) ev = true ->
  in_range (adjustments (app (step w ev))).
Proof.
  intros Hin Hen. unfold enabled in Hen. cbn [step app].
  destruct (image (app w)); destruct ev; try discriminate; cbn [handle adjustments];
    try assumption.
  apply andb_true_iff in Hen. destruct Hen as [Hlo Hhi].
  apply handleAdjustment_in_range; [assumption | lia].
Qed.

(** X2: in every session at the page the four adjustments stay within the
    ranges of their sliders (0..200, blur 0..20), so the canvas always holds
    the complete filter list with the current values: the page never hands
    the canvas a filter it would ignore. *)
Theorem sliders_stay_in_range evs w :
  ui_run evs initial_world = Some w ->
  in_range (adjustments (app w)) /\
  forall c, canvasRef w = Some c ->
    ds_filter (ctx_state (cv_ctx c)) =
    [Brightness (brightness (adjustments (app w)));
     Contrast (contrast (adjustments (app w)));
     Saturate (saturation (adjustments (app w)));
     Blur (blur (adjustments (app w)))].
Proof.
  intros Hrun.
  assert (Hin : in_range (adjustments (app w))).
  { apply (ui_run_invariant (fun w => in_range (adjustments (app w)))
             step_in_range evs initial_world w); [| exact Hrun].
    unfold in_range; cbn; lia. }
  split; [exact Hin |]. intros c Hc.
  apply ui_run_is_run in Hrun. subst w. rewrite run_shown in Hc.
  unfold shown in Hc. destruct (image _) as [img |]; [| discriminate].
  injection Hc as <-. cbn. now apply installed_filter_in_range.
Qed.

Lemma sliders_stay_in_range_witness :
  ui_run [Upload square_image; Adjust KBrightness 200; Adjust KBlur 20] initial_world
    = Some (run [Upload square_image; Adjust KBrightness 200; Adjust KBlur 20] initial_world) /\
  in_range (adjustments (app (run [Upload square_image; Adjust KBrightness 200;
                                   Adjust KBlur 20] initial_world))) /\
  forall c,
    canvasRef (run [Upload square_image; Adjust KBrightness 200; Adjust KBlur 20]
                   initial_world) = Some c ->
    ds_filter (ctx_state (cv_ctx c)) =
    [Brightness 200; Contrast 100; Saturate 100; Blur 20].
Proof.
  assert (H : ui_run [Upload square_image; Adjust KBrightness 200; Adjust KBlur 20]
                     initial_world
              = Some (run [Upload square_image; Adjust KBrightness 200; Adjust KBlur 20]
                          initial_world)) by reflexivity.
  split; [exact H |].
  exact (sliders_stay_in_range _ _ H).
Defined.

(** ** What a sequence of events adds up to *)

Lemma run_app evs1 evs2 w : run (evs1 ++ evs2) w = run evs2 (run evs1 w).
Proof. unfold run. apply fold_left_app. Qed.

Lemma rotate_step_turns k :
  0 <= k < 4 -> rotate_step (90 * k) = 90 * ((k + 1) mod 4).
Proof.
  intros Hk.
  assert (Hc : k = 0 \/ k = 1 \/ k = 2 \/ k = 3) by lia.
  destruct Hc as [-> | [-> | [-> | ->]]]; reflexivity.
Qed.

Lemma run_rotation evs : forall w k,
  rotation (app w) = 90 * k -> 0 <= k < 4 ->
  rotation (app (run evs w)) = 90 * ((k + Z.of_nat (count is_rotate evs)) mod 4).
Proof.
  unfold run, count.
  induction evs as [| ev evs IH]; intros w k Hrot Hk; cbn [fold_left filter].
  - cbn. rewrite Z.add_0_r, Z.mod_small by lia. exact Hrot.
  - assert (Hkeep : is_rotate ev = false ->
                    rotation (app (step w ev)) = 90 * k).
    { destruct ev; cbn; intros; (discriminate || assumption). }
    destruct ev; cbn [is_rotate];
      try (rewrite (IH _ k (Hkeep eq_refl) Hk); reflexivity).
    rewrite (IH (step w Rotate) ((k + 1) mod 4)).
    + f_equal. cbn [length]. zdiv.
    + cbn. rewrite Hrot. now apply rotate_step_turns.
    + apply Z.mod_pos_bound. lia.
Qed.

Lemma run_flip_h evs : forall w,
  horizontal (flip (app (run evs w))) =
  xorb (horizontal (flip (app w))) (Nat.odd (count is_flip_h evs)).
Proof.
  unfold run, count.
  induction evs as [| ev evs IH]; intros w; cbn [fold_left filter].
  - cbn. now rewrite xorb_false_r.
  - rewrite IH. destruct ev; cbn [is_flip_h step app handle flip horizontal flip_horizontal];
      try reflexivity.
    cbn [length]. rewrite Nat.odd_succ, <- Nat.negb_odd.
    destruct (horizontal (flip (app w))), (Nat.odd _); reflexivity.
Qed.

Lemma run_flip_v evs : forall w,
  vertical (flip (app (run evs w))) =
  xorb (vertical (flip (app w))) (Nat.odd (count is_flip_v evs)).
Proof.
  unfold run, count.
  induction evs as [| ev evs IH]; intros w; cbn [fold_left filter].
  - cbn. now rewrite xorb_false_r.
  - rewrite IH. destruct ev; cbn [is_flip_v step app handle flip vertical flip_vertical];
      try reflexivity.
    cbn [length]. rewrite Nat.odd_succ, <- Nat.negb_odd.
    destruct (vertical (flip (app w))), (Nat.odd _); reflexivity.
Qed.

(** X3: however the three transform buttons are pressed, and whatever
    happens in between, only the numbers of presses count: the rotation is
    90 degrees times the number of Rotate presses modulo 4, and each flip flag
    is set exactly when its button was pressed an odd number of times. *)
Theorem transform_state_counts evs :
  let st := app (run evs initial_world) in
  rotation st = 90 * (Z.of_nat (count is_rotate evs) mod 4) /\
  horizontal (flip st) = Nat.odd (count is_flip_h evs) /\
  vertical (flip st) = Nat.odd (count is_flip_v evs).
Proof.
  cbv zeta. split; [| split].
  - now rewrite (run_rotation evs initial_world 0) by (reflexivity || lia).
  - now rewrite run_flip_h.
  - now rewrite run_flip_v.
Qed.

Lemma run_untouched k evs : forall w,
  forallb (fun ev => negb (moves_slider k ev)) evs = true ->
  adjustment k (adjustments (app (run evs w))) = adjustment k (adjustments (app w)).
Proof.
  unfold run.
  induction evs as [| ev evs IH]; intros w Hno; cbn in *; [reflexivity |].
  apply andb_true_iff in Hno. destruct Hno as [Hev Hrest].
  rewrite IH by assumption. cbn.
  destruct ev; try reflexivity. cbn in *.
  destruct name, k; try reflexivity; discriminate.
Qed.

Lemma handleAdjustment_sets name value a :
  adjustment name (handleAdjustment name value a) = value.
Proof. now destruct name. Qed.

(** X4: a slider shows the last value it was given.  After a change of
    slider [k] to [v], followed by any events that do not move that slider
    (other sliders, rotations, flips, uploads), adjustment [k] is [v]. *)
Theorem last_slider_value_wins evs1 evs2 k v w :
  forallb (fun ev => negb (moves_slider k ev)) evs2 = true ->
  adjustment k (adjustments (app (run (evs1 ++ Adjust k v :: evs2) w))) = v.
Proof.
  intros Hno. rewrite run_app. change (Adjust k v :: evs2) with ([Adjust k v] ++ evs2).
  rewrite run_app, run_untouched by assumption.
  cbn. apply handleAdjustment_sets.
Qed.

Lemma last_slider_value_wins_witness :
  forallb (fun ev => negb (moves_slider KContrast ev))
          [Rotate; Adjust KBlur 5; FlipH] = true /\
  adjustment KContrast
    (adjustments (app (run ([Upload square_image; Adjust KContrast 10]
                            ++ Adjust KContrast 150 :: [Rotate; Adjust KBlur 5; FlipH])
                           initial_world))) = 150.
Proof.
  split; [reflexivity |].
  exact (last_slider_value_wins [Upload square_image; Adjust KContrast 10]
           [Rotate; Adjust KBlur 5; FlipH] KContrast 150 initial_world eq_refl).
Defined.

Lemma world_eq w1 w2 :
  app w1 = app w2 -> canvasRef w1 = canvasRef w2 -> w1 = w2.
Proof. destruct w1, w2; cbn; now intros -> ->. Qed.

Lemma app_run evs : forall w,
  app (run evs w) = fold_left (fun st ev => handle ev st) evs (app w).
Proof.
  unfold run. induction evs as [| ev evs IH]; intros w; cbn; [reflexivity |].
  now rewrite IH.
Qed.

Lemma run_suffix_same evs suffix :
  (forall st, quarter_angle (rotation st) ->
     fold_left (fun st ev => handle ev st) suffix st = st) ->
  run (evs ++ suffix) initial_world = run evs initial_world.
Proof.
  intros Hsame.
  assert (Happ : app (run (evs ++ suffix) initial_world) = app (run evs initial_world)).
  { rewrite run_app, app_run. apply Hsame.
    apply (run_invariant (fun w => quarter_angle (rotation (app w)))).
    - intros w ev Hw. cbn. now apply handle_quarter.
    - unfold quarter_angle; cbn; auto. }
  apply world_eq; [exact Happ |]. now rewrite !run_shown, Happ.
Qed.

(** X5: four presses of Rotate, or two presses of the same flip button,
    bring the page back to exactly the state and the canvas it had. *)
Theorem presses_that_cancel evs :
  run (evs ++ [Rotate; Rotate; Rotate; Rotate]) initial_world = run evs initial_world /\
  run (evs ++ [FlipH; FlipH]) initial_world = run evs initial_world /\
  run (evs ++ [FlipV; FlipV]) initial_world = run evs initial_world.
Proof.
  split; [| split]; apply run_suffix_same; intros [img a r [h v]] Hq;
    cbv [fold_left handle flip_horizontal flip_vertical
         image adjustments rotation flip horizontal vertical] in *.
  - f_equal. unfold quarter_angle in Hq. cbn [In] in Hq.
    destruct Hq as [<- | [<- | [<- | [<- | []]]]]; reflexivity.
  - now rewrite negb_involutive.
  - now rewrite negb_involutive.
Qed.

Lemma pipeline_half_turn img a r fl :
  quarter_angle r ->
  pipeline img a (rotate_step (rotate_step r)) fl =
  pipeline img a r (flip_vertical (flip_horizontal fl)).
Proof.
  intros Hq. unfold pipeline. f_equal. f_equal.
  unfold transformed. 
  assert (Hm : transform_matrix (bm_width img) (bm_height img)
                 (rotate_step (rotate_step r)) fl =
               transform_matrix (bm_width img) (bm_height img) r
                 (flip_vertical (flip_horizontal fl))).
  { unfold quarter_angle in Hq. cbn [In] in Hq.
    destruct Hq as [<- | [<- | [<- | [<- | []]]]]; destruct fl as [[] []]; reflexivity. }
  now rewrite Hm.
Qed.

(** X6: a half turn is the two flips.  Where the pixel grids line up (at
    rotation 0 or 180 for every image, at 90 or 270 for an image with W + H
    even), pressing Rotate twice leaves the same canvas, pixel for pixel, as
    pressing Flip H and Flip V, and that canvas has all its pixels
    determined. *)
Theorem half_turn_is_both_flips evs img :
  image (app (run evs initial_world)) = Some img ->
  0 < bm_width img -> 0 < bm_height img ->
  (rotation (app (run evs initial_world)) = 90 \/
   rotation (app (run evs initial_world)) = 270 ->
   Z.even (bm_width img + bm_height img) = true) ->
  exists c data,
    canvasRef (run (evs ++ [Rotate; Rotate]) initial_world) = Some c /\
    canvasRef (run (evs ++ [FlipH; FlipV]) initial_world) = Some c /\
    cv_data c = Some data.
Proof.
  intros Himg Hw Hh Hpar.
  rewrite !run_shown, !run_app, !app_run. cbn [fold_left handle].
  rewrite app_run in Himg, Hpar.
  set (st := fold_left (fun st ev => handle ev st) evs (app initial_world)) in *.
  assert (Hq : quarter_angle (rotation st)).
  { unfold st. rewrite <- app_run.
    apply (run_invariant (fun w => quarter_angle (rotation (app w)))).
    - intros w ev Hw0. cbn. now apply handle_quarter.
    - unfold quarter_angle; cbn; auto. }
  unfold shown. cbn [image adjustments rotation flip]. rewrite Himg.
  rewrite (pipeline_half_turn img (adjustments st) (rotation st) (flip st) Hq).
  destruct (quarter_angle_cos_sin _ Hq) as (c & s & Hcs & Hs).
  eexists. eexists. split; [reflexivity |]. split; [reflexivity |].
  unfold pipeline. cbn [cv_data].
  rewrite (transformed_quarter img (rotation st) _ c s Hw Hh Hcs)
    by (intros Hne; apply even_mod2, Hpar, Hs, Hne).
  reflexivity.
Qed.

Lemma half_turn_is_both_flips_witness :
  image (app (run [Upload square_image; Rotate] initial_world)) = Some square_image /\
  0 < bm_width square_image /\ 0 < bm_height square_image /\
  (rotation (app (run [Upload square_image; Rotate] initial_world)) = 90 \/
   rotation (app (run [Upload square_image; Rotate] initial_world)) = 270 ->
   Z.even (bm_width square_image + bm_height square_image) = true) /\
  exists c data,
    canvasRef (run ([Upload square_image; Rotate] ++ [Rotate; Rotate]) initial_world)
      = Some c /\
    canvasRef (run ([Upload square_image; Rotate] ++ [FlipH; FlipV]) initial_world)
      = Some c /\
    cv_data c = Some data.
Proof.
  assert (Hw : 0 < bm_width square_image) by (cbn; lia).
  assert (Hh : 0 < bm_height square_image) by (cbn; lia).
  assert (Hp : rotation (app (run [Upload square_image; Rotate] initial_world)) = 90 \/
               rotation (app (run [Upload square_image; Rotate] initial_world)) = 270 ->
               Z.even (bm_width square_image + bm_height square_image) = true)
    by (intros _; reflexivity).
  split; [reflexivity |]. split; [exact Hw |]. split; [exact Hh |]. split; [exact Hp |].
  exact (half_turn_is_both_flips [Upload square_image; Rotate] square_image
           eq_refl Hw Hh Hp).
Defined.

(** ** The block between [save] and [restore] *)

(** X7: whatever state the context is in (any matrix, any filter, any
    saved states), the block from [ctx.save()] to [ctx.restore()] leaves the
    context exactly as it found it and the canvas at its size: the
    translation, rotation and scaling of one draw never reach the next.
    [applyFilters] is this block run on the resized canvas with the filter
    set. *)
Theorem save_restore_leaves_context img a rot fl cv :
  let st := mkAppState (Some img) a rot fl in
  cv_ctx (draw_block st img cv) = cv_ctx cv /\
  cv_width (draw_block st img cv) = cv_width cv /\
  cv_height (draw_block st img cv) = cv_height cv /\
  applyFilters st (Some cv) =
    Normal (Some (draw_block st img
      (cv |> set_width (bm_width img) |> set_height (bm_height img)
          |> set_filter [Brightness (brightness a); Contrast (contrast a);
                         Saturate (saturation a); Blur (blur a)]))).
Proof.
  cbv zeta. destruct cv as [w h data [[f m] stack]].
  repeat split.
  unfold applyFilters, draw_block, set_filter, getContext. cbn [image rotation flip adjustments].
  destruct (forallb filter_fn_valid _); reflexivity.
Qed.

(** ** From the upload to the download *)

Lemma pipeline_defaults img :
  bitmap_wf img -> opaque img ->
  toDataURL (pipeline img default_adjustments 0 no_flip) = Some img.
Proof.
  intros Hwf Hop.
  destruct (applyFilters_flips img no_flip empty_canvas Hwf Hop) as (c & Hc & Hback).
  rewrite (applyFilters_draws (mkAppState (Some img) default_adjustments 0 no_flip)
             img empty_canvas eq_refl) in Hc.
  cbn [adjustments rotation flip] in Hc.
  assert (Heq : pipeline img default_adjustments 0 no_flip = c) by congruence.
  rewrite Heq. exact Hback.
Qed.

Lemma ui_run_transforms evs : forall w,
  image (app w) <> None -> forallb is_transform evs = true ->
  ui_run evs w = Some (run evs w) /\
  image (app (run evs w)) = image (app w) /\
  adjustments (app (run evs w)) = adjustments (app w).
Proof.
  unfold run.
  induction evs as [| ev evs IH]; intros w Himg Hall; cbn in *; [auto |].
  apply andb_true_iff in Hall. destruct Hall as [Hev Hrest].
  assert (Hen : enabled (app w) ev = true).
  { unfold enabled. destruct (image (app w)); [| contradiction].
    destruct ev; (reflexivity || discriminate). }
  assert (Hsame : image (handle ev (app w)) = image (app w) /\
                  adjustments (handle ev (app w)) = adjustments (app w))
    by (destruct ev; (now split) || discriminate).
  destruct Hsame as [Hi Ha].
  rewrite Hen.
  destruct (IH (step w ev)) as (H1 & H2 & H3); [cbn; congruence | assumption |].
  cbn in H2, H3. repeat split; congruence.
Qed.

(** X8: uploading an image without transparency and downloading, once
    the image has loaded and been drawn, gives the image back, bit for bit,
    also after any presses of the transform buttons that cancel out (Rotate a
    multiple of four times, each flip an even number of times): the page then
    offers [edited-image.png] with exactly the uploaded bitmap. *)
Theorem download_returns_the_upload img evs :
  bitmap_wf img ->
  opaque img ->
  forallb is_transform evs = true ->
  (count is_rotate evs mod 4 = 0)%nat ->
  Nat.even (count is_flip_h evs) = true ->
  Nat.even (count is_flip_v evs) = true ->
  exists w,
    ui_run (Upload img :: evs) initial_world = Some w /\
    handleDownload (canvasRef w) = Some ("edited-image.png"%string, Some img).
Proof.
  intros Hwf Hop Hall Hrot Hfh Hfv.
  set (w1 := step initial_world (Upload img)).
  destruct (ui_run_transforms evs w1) as (Hrun & Himg & Hadj);
    [discriminate | assumption |].
  exists (run evs w1). split; [exact Hrun |].
  change (run evs w1) with (run (Upload img :: evs) initial_world).
  rewrite run_shown.
  change (run (Upload img :: evs) initial_world) with (run evs w1).
  unfold shown. rewrite Himg, Hadj. cbn [w1 step app handle image adjustments initial_world
                                         initial_state].
  rewrite (run_rotation evs w1 0) by (reflexivity || lia).
  replace (Z.of_nat (count is_rotate evs)) with (4 * Z.of_nat (count is_rotate evs / 4))
    by (pose proof (Nat.div_mod_eq (count is_rotate evs) 4); lia).
  replace ((0 + 4 * Z.of_nat (count is_rotate evs / 4)) mod 4) with 0 by zdiv.
  assert (Hflip : flip (app (run evs w1)) = no_flip).
  { pose proof (run_flip_h evs w1) as Hh. pose proof (run_flip_v evs w1) as Hv.
    rewrite <- Nat.negb_even, Hfh in Hh. rewrite <- Nat.negb_even, Hfv in Hv.
    destruct (flip (app (run evs w1))) as [h v]. cbn in Hh, Hv. now subst. }
  rewrite Hflip. cbn [handleDownload Z.mul].
  now rewrite pipeline_defaults.
Qed.

Lemma download_returns_the_upload_witness :
  bitmap_wf square_image /\ opaque square_image /\
  forallb is_transform [Rotate; FlipH; Rotate; Rotate; FlipH; Rotate] = true /\
  (count is_rotate [Rotate; FlipH; Rotate; Rotate; FlipH; Rotate] mod 4 = 0)%nat /\
  Nat.even (count is_flip_h [Rotate; FlipH; Rotate; Rotate; FlipH; Rotate]) = true /\
  Nat.even (count is_flip_v [Rotate; FlipH; Rotate; Rotate; FlipH; Rotate]) = true /\
  exists w,
    ui_run (Upload square_image :: [Rotate; FlipH; Rotate; Rotate; FlipH; Rotate])
           initial_world = Some w /\
    handleDownload (canvasRef w) = Some ("edited-image.png"%string, Some square_image).
Proof.
  split; [exact square_image_wf |]. split; [exact square_image_opaque |].
  repeat (split; [reflexivity |]).
  exact (download_returns_the_upload square_image
           [Rotate; FlipH; Rotate; Rotate; FlipH; Rotate]
           square_image_wf square_image_opaque eq_refl eq_refl eq_refl eq_refl).
Defined.

(** ** The adjustments object *)

(** X9: the record update of [handleAdjustment] is the object update
    [{ ...prev, [name]: value }]: the key is written in place, so that the
    object keeps its four keys in their order (the page lists its sliders in
    that order, whichever was moved) and holds the new value under [name]. *)
Theorem adjustments_object_update name value prev :
  entries (handleAdjustment name value prev)
    = js_assign (key_name name) value (entries prev) /\
  map fst (js_assign (key_name name) value (entries prev))
    = ["brightness"; "contrast"; "saturation"; "blur"]%string /\
  js_lookup (key_name name) (js_assign (key_name name) value (entries prev))
    = Some value /\
  forall other, other <> name ->
    js_lookup (key_name other) (js_assign (key_name name) value (entries prev))
    = Some (adjustment other prev).
Proof.
  destruct name; repeat split; intros other Hne; destruct other;
    (reflexivity || contradiction).
Qed.

(** ** A quarter turn on a canvas that keeps its size *)

Ltac through_spec_ops :=
  cbv [flip_then_rotate spec_rotate spec_flips spec_flip_h spec_flip_v
       horizontal vertical];
  cbv iota beta;
  repeat (cbn [bm_width bm_height Z.eqb Pos.eqb fst snd];
          rewrite ?get_pixel_raster).

Lemma quarter_turn_pixel img k fl x y :
  0 < bm_width img -> 0 < bm_height img ->
  (bm_width img + bm_height img) mod 2 = 0 ->
  k = 1 \/ k = 3 ->
  0 <= x < bm_width img -> 0 <= y < bm_height img ->
  let p := get_pixel (flip_then_rotate k fl img)
             (x + (bm_width (flip_then_rotate k fl img) - bm_width img) / 2)
             (y + (bm_height (flip_then_rotate k fl img) - bm_height img) / 2) in
  (~ central_square (bm_width img) (bm_height img) x y -> p = transparent) /\
  (central_square (bm_width img) (bm_height img) x y ->
   exists i j, central_square (bm_width img) (bm_height img) i j /\
               p = get_pixel img i j).
Proof.
  intros Hw Hh Hpar Hk Hx Hy. cbv zeta. unfold central_square.
  destruct Hk as [-> | ->]; destruct fl as [[] []]; through_spec_ops;
    (split; intros Hc;
     [ split_bounds; first [reflexivity | exfalso; zdiv]
     | eexists; eexists; split; cycle 1;
       [ split_bounds; first [reflexivity | exfalso; zdiv] | zdiv ] ]).
Qed.

(** X10: the canvas keeps the size of the image, so a quarter turn of a
    W x H image without transparency (W + H even) is drawn only on the
    central square of side min(W, H): every pixel of the output outside that
    square is transparent, and every pixel inside it is a pixel of the
    central square of the source, so that what lies outside the central
    square of the source is cut off. *)
Theorem quarter_turn_shows_central_square img rot fl cv :
  bitmap_wf img ->
  opaque img ->
  rot = 90 \/ rot = 270 ->
  Z.even (bm_width img + bm_height img) = true ->
  exists c out,
    applyFilters (mkAppState (Some img) default_adjustments rot fl) (Some cv)
      = Normal (Some c) /\
    toDataURL c = Some out /\
    bm_width out = bm_width img /\ bm_height out = bm_height img /\
    forall x y, 0 <= x < bm_width img -> 0 <= y < bm_height img ->
      (~ central_square (bm_width img) (bm_height img) x y ->
       get_pixel out x y = transparent) /\
      (central_square (bm_width img) (bm_height img) x y ->
       exists i j, central_square (bm_width img) (bm_height img) i j /\
         get_pixel out x y = get_pixel img i j).
Proof.
  intros Hwf Hop Hrot Hpar.
  assert (Hq : quarter_angle rot)
    by (unfold quarter_angle; cbn [In]; destruct Hrot as [-> | ->]; auto).
  destruct (applyFilters_geometry_opaque img rot fl cv Hwf Hop Hq (fun _ => Hpar))
    as (c & Hc & _ & Hback).
  exists c. eexists. split; [exact Hc |]. split; [exact Hback |].
  split; [reflexivity |]. split; [reflexivity |].
  intros x y Hx Hy. destruct Hwf as (Hw & Hh & _).
  unfold centred_window. rewrite get_pixel_raster.
  rewrite (proj2 (in_bounds_true _ _ _ _) (conj Hx Hy)).
  apply quarter_turn_pixel; try assumption.
  - now apply even_mod2.
  - destruct Hrot as [-> | ->]; [left | right]; reflexivity.
Qed.

Lemma quarter_turn_shows_central_square_witness :
  bitmap_wf (mkBitmap 3 1 [sample_pixel 10; sample_pixel 20; sample_pixel 30]) /\
  opaque (mkBitmap 3 1 [sample_pixel 10; sample_pixel 20; sample_pixel 30]) /\
  (90 = 90 \/ 90 = 270) /\
  Z.even (3 + 1) = true /\
  exists c out,
    applyFilters (mkAppState (Some (mkBitmap 3 1 [sample_pixel 10; sample_pixel 20;
                                                  sample_pixel 30]))
                             default_adjustments 90 no_flip) (Some empty_canvas)
      = Normal (Some c) /\
    toDataURL c = Some out /\
    bm_width out = 3 /\ bm_height out = 1 /\
    forall x y, 0 <= x < 3 -> 0 <= y < 1 ->
      (~ central_square 3 1 x y -> get_pixel out x y = transparent) /\
      (central_square 3 1 x y ->
       exists i j, central_square 3 1 i j /\
         get_pixel out x y
         = get_pixel (mkBitmap 3 1 [sample_pixel 10; sample_pixel 20; sample_pixel 30]) i j).
Proof.
  assert (Hwf : bitmap_wf (mkBitmap 3 1 [sample_pixel 10; sample_pixel 20; sample_pixel 30])).
  { unfold bitmap_wf; cbn. repeat split; try lia. repeat constructor; cbn; lia. }
  assert (Hop : opaque (mkBitmap 3 1 [sample_pixel 10; sample_pixel 20; sample_pixel 30]))
    by (unfold opaque; cbn; repeat constructor).
  split; [exact Hwf |]. split; [exact Hop |].
  split; [left; reflexivity |]. split; [reflexivity |].
  exact (quarter_turn_shows_central_square
           (mkBitmap 3 1 [sample_pixel 10; sample_pixel 20; sample_pixel 30])
           90 no_flip empty_canvas Hwf Hop (or_introl eq_refl) eq_refl).
Defined.

(** ** Pixels are moved, not changed *)

(** X11: at the initial adjustments, flipping and turning only move
    pixels.  For an image without transparency, a rotation of 0 or 180
    degrees on any such image and of 90 or 270 degrees on a square one,
    whatever the flips, the output holds exactly the pixels of the source,
    each as often as the source has it, in another order: nothing is lost,
    duplicated or altered. *)
Theorem pixels_only_move img rot fl cv :
  bitmap_wf img ->
  opaque img ->
  quarter_angle rot ->
  (rot = 90 \/ rot = 270 -> bm_width img = bm_height img) ->
  exists c out,
    applyFilters (mkAppState (Some img) default_adjustments rot fl) (Some cv)
      = Normal (Some c) /\
    toDataURL c = Some out /\
    Permutation (bm_data img) (bm_data out).
Proof.
  intros Hwf Hop Hq Hsq.
  destruct (applyFilters_geometry_opaque img rot fl cv Hwf Hop Hq) as (c & Hc & _ & Hback).
  { intros Hrot. rewrite (Hsq Hrot).
    replace (bm_height img + bm_height img) with (2 * bm_height img) by lia.
    now rewrite Z.even_mul. }
  exists c. eexists. split; [exact Hc |]. split; [exact Hback |].
  cbn [bm_data].
  destruct (flip_then_rotate_size img rot fl Hq Hsq) as [Hbw Hbh].
  set (b := flip_then_rotate (quarter_turns rot) fl img) in *.
  assert (Hbs : shaped b)
    by (unfold b, flip_then_rotate;
        now apply spec_rotate_shaped, spec_flips_shaped, wf_shaped).
  rewrite <- Hbw, <- Hbh.
  rewrite centred_window_full; [| destruct Hwf; lia | assumption].
  unfold b, flip_then_rotate.
  eapply Permutation_trans; [apply (perm_flips fl), Hwf |].
  apply perm_rotate, spec_flips_wf, Hwf.
Qed.

Lemma pixels_only_move_witness :
  bitmap_wf square_image /\ opaque square_image /\ quarter_angle 270 /\
  (270 = 90 \/ 270 = 270 -> bm_width square_image = bm_height square_image) /\
  exists c out,
    applyFilters (mkAppState (Some square_image) default_adjustments 270 (mkFlip false true))
                 (Some empty_canvas) = Normal (Some c) /\
    toDataURL c = Some out /\
    Permutation (bm_data square_image) (bm_data out).
Proof.
  assert (Hq : quarter_angle 270) by (unfold quarter_angle; cbn; auto).
  assert (Hsq : 270 = 90 \/ 270 = 270 -> bm_width square_image = bm_height square_image)
    by (intros _; reflexivity).
  split; [exact square_image_wf |]. split; [exact square_image_opaque |].
  split; [exact Hq |]. split; [exact Hsq |].
  exact (pixels_only_move square_image 270 (mkFlip false true) empty_canvas
           square_image_wf square_image_opaque Hq Hsq).
Defined.
